(** * altalias: alternate room aliases for a Matrix room

    A shallow embedding of [altalias.py] (the maubot plugin [AltAliasBot])
    and the properties of its alias syntax check, its allow/deny decision,
    its rule-set persistence and its command handlers. *)

From Stdlib Require Import Ascii String QArith Qminmax Lqa.
From stdpp Require Import gmap strings list.


(** ** Python values used by the plugin *)

(** [RoomID], [RoomAlias] and user identifiers are [NewType]s of [str]. *)
Abbreviation RoomID := string.
Abbreviation RoomAlias := string.
Abbreviation UserID := string.

(** The exceptions the plugin raises, catches or lets through.
    [MNotFound] and [MForbidden] are subclasses of [MatrixRequestError];
    every constructor is an [Exception]. *)
Inductive exn : Type :=
  | ValueError (msg : string)
  | TypeError
  | TimeoutError
  | ReError
  | MNotFound (message : string)
  | MForbidden (message : string)
  | MatrixRequestError (message : string)
  | OtherException.

(** Outcome of a Python call: a returned value or a raised exception. *)
Inductive result (A : Type) : Type :=
  | Return (a : A)
  | Raise (e : exn).
Arguments Return {A} a.
Arguments Raise {A} e.

Definition result_bind {A B} (r : result A) (k : A -> result B) : result B :=
  match r with
  | Return a => k a
  | Raise e => Raise e
  end.

(** [isinstance(e, MatrixRequestError)], giving [e.message]. *)
Definition matrix_request_error (e : exn) : option string :=
  match e with
  | MNotFound m | MForbidden m | MatrixRequestError m => Some m
  | _ => None
  end.

(** ** String primitives *)

Module Str.

(** [s.index(c)] for a one-character needle: the position of the first
    occurrence, [None] where Python raises [ValueError]. *)
Fixpoint index (c : ascii) (s : string) : option nat :=
  match s with
  | EmptyString => None
  | String a s' =>
      if Ascii.eqb a c then Some 0 else option_map S (index c s')
  end.

(** [s[i:j]] for [0 <= i] and [0 <= j]. *)
Definition slice (i j : nat) (s : string) : string :=
  substring i (j - i) s.

(** [c in s] for a one-character needle. *)
Definition contains (c : ascii) (s : string) : bool :=
  match index c s with Some _ => true | None => false end.

Definition is_upper (a : ascii) : bool :=
  let n := nat_of_ascii a in (65 <=? n) && (n <=? 90).
Definition is_lower (a : ascii) : bool :=
  let n := nat_of_ascii a in (97 <=? n) && (n <=? 122).

Fixpoint any_char (p : ascii -> bool) (s : string) : bool :=
  match s with
  | EmptyString => false
  | String a s' => p a || any_char p s'
  end.

(** Every character of [s] is an ASCII character. *)
Definition is_ascii (s : string) : bool :=
  negb (any_char (fun a => 128 <=? nat_of_ascii a) s).

(** [s.islower()]: at least one cased character and no uppercase one,
    with the casing of the ASCII letters: this is [str.islower] on the
    strings that satisfy [is_ascii]. *)
Definition islower (s : string) : bool :=
  any_char is_lower s && negb (any_char is_upper s).

End Str.

(** ** Alias syntax *)

(** [AltAliasBot._get_localpart] *)
Definition _get_localpart (alias : RoomAlias) : result string :=
  match alias with
  | EmptyString => Raise (ValueError "Alias is empty")
  | String a0 _ =>
      if negb (Ascii.eqb a0 "#") then Raise (ValueError "Aliases start with #")
      else
        match Str.index ":" alias with
        | None => Raise (ValueError "Alias must contain domain separator")
        | Some sep =>
            if sep =? String.length alias - 1
            then Raise (ValueError "Alias must contain domain")
            else Return (Str.slice 1 sep alias)
        end
  end.

(** [AltAliasBot._localpart_matches]: only [ValueError] is caught. *)
Definition _localpart_matches (alias : RoomAlias) (equal_to : string) : result bool :=
  match _get_localpart alias with
  | Return localpart => Return (String.eqb equal_to localpart)
  | Raise (ValueError _) => Return false
  | Raise e => Raise e
  end.

(** [_get_localpart] on a value that may be [None]: [len(None)] raises
    [TypeError]. *)
Definition _get_localpart_of (alias : option RoomAlias) : result string :=
  match alias with
  | None => Raise TypeError
  | Some alias => _get_localpart alias
  end.

(** [_localpart_matches] on a value that may be [None]: its [except
    ValueError] clause lets the [TypeError] through. *)
Definition _localpart_matches_of (alias : option RoomAlias) (equal_to : string)
  : result bool :=
  match _get_localpart_of alias with
  | Return localpart => Return (String.eqb equal_to localpart)
  | Raise (ValueError _) => Return false
  | Raise e => Raise e
  end.

(** ** The regular-expression engine

    Python's [re] module is not part of the plugin: it is taken as an
    interface.  A compiled [re.Pattern] is determined by its source text,
    which it exposes as [.pattern]. *)

Record Pattern : Type := { pattern : string }.

Class RegexEngine : Type := {
  (** [re.compile(s)] returns (it does not raise [re.error]) *)
  re_valid : string -> bool;
  (** [regex.fullmatch(s) is not None] when the call runs to its end *)
  re_fullmatch : Pattern -> string -> bool;
  (** wall-clock time that call needs, in the time unit of [setitimer] *)
  re_duration : Pattern -> string -> Q;
  re_duration_nonneg : forall regex s, (0 <= re_duration regex s)%Q
}.

(** [re.compile]: [None] where Python raises [re.error]. *)
Definition re_compile `{E : RegexEngine} (s : string) : option Pattern :=
  if re_valid s then Some {| pattern := s |} else None.

(** ** Plugin data *)

Record RoomInfo : Type := { formats : list Pattern }.

(** The content of [m.room.canonical_alias].  [canonical_alias] is [None]
    where the room has no canonical alias: in an event without the field,
    and in the content built by [CanonicalAliasStateEventContent()]. *)
Record CanonicalAliasStateEventContent : Type := {
  canonical_alias : option RoomAlias;
  alt_aliases : list RoomAlias
}.

(** One entry of [config["rooms"]]: a dict that may lack the key
    ["formats"]. *)
Record RoomConfig : Type := { cfg_formats : option (list string) }.

(** The four keys [Config.do_update] copies.  [command] is a list whose
    first element is read unconditionally, hence kept as head and tail. *)
Record Config : Type := {
  command : string * list string;
  admins : list UserID;
  require_lowercase : bool;
  rooms : gmap RoomID RoomConfig
}.

Record AltAliasBot : Type := {
  config : Config;
  _command : string;
  _aliases : gset string;
  _rooms : gmap RoomID RoomInfo
}.

Record MessageEvent : Type := { room_id : RoomID; sender : UserID }.

(** ** The bounded-time rule evaluation *)

(** [max(len(cfg.formats) * 0.5, 2)], the argument of [timeout]. *)
Definition deadline (n : nat) : Q := Qmax (inject_Z (Z.of_nat n) * (1 # 2)) 2.

(** [raise_timeout], the [SIGALRM] handler. *)
Definition raise_timeout {A} : result A := Raise TimeoutError.

(** [with timeout(time): body].  The context manager arms the interval
    timer with [time] and runs the body; the body is given the time left
    on the timer.  Its [finally] clause only disarms the timer, so what
    the body raises leaves the [with] statement unchanged. *)
Definition timeout {A} (time : Q) (body : Q -> result A) : result A :=
  body time.

Section Decision.
Context `{E : RegexEngine}.

(** The loop [for regex in cfg.formats: if regex.fullmatch(alias):
    return True] run with [remaining] time on the timer: the signal
    arrives during the first call that outlasts what is left. *)
Fixpoint match_formats (remaining : Q) (fmts : list Pattern) (alias : RoomAlias)
  : result bool :=
  match fmts with
  | [] => Return false
  | regex :: rest =>
      let d := re_duration regex alias in
      if Qle_bool remaining d then raise_timeout
      else if re_fullmatch regex alias then Return true
      else match_formats (remaining - d) rest alias
  end.

(** The loop [for existing_alias in existing_event.alt_aliases]. *)
Fixpoint any_localpart_matches (aliases : list RoomAlias) (localpart : string)
  : result bool :=
  match aliases with
  | [] => Return false
  | existing_alias :: rest =>
      result_bind (_localpart_matches existing_alias localpart) (fun b =>
        if b then Return true else any_localpart_matches rest localpart)
  end.

(** [AltAliasBot._is_allowed] *)
Definition _is_allowed (self : AltAliasBot) (room : RoomID) (alias : RoomAlias)
    (existing_event : CanonicalAliasStateEventContent) : result bool :=
  match _rooms self !! room with
  | None =>
      result_bind (_get_localpart alias) (fun localpart =>
      result_bind (_localpart_matches_of (canonical_alias existing_event) localpart)
        (fun b =>
           if b then Return true
           else any_localpart_matches (alt_aliases existing_event) localpart))
  | Some cfg =>
      timeout (deadline (length (formats cfg)))
        (fun remaining => match_formats remaining (formats cfg) alias)
  end.

(** Time the rule loop needs when nothing interrupts it: the calls up to
    and including the first one that matches. *)
Fixpoint evaluation_time (fmts : list Pattern) (alias : RoomAlias) : Q :=
  match fmts with
  | [] => 0
  | regex :: rest =>
      re_duration regex alias +
      (if re_fullmatch regex alias then 0 else evaluation_time rest alias)
  end.

(** The deadline elapses while the rules of [cfg] are evaluated. *)
Definition deadline_elapses (cfg : RoomInfo) (alias : RoomAlias) : Prop :=
  (deadline (length (formats cfg)) <= evaluation_time (formats cfg) alias)%Q.

End Decision.

(** ** The world the handlers run in *)

(** A message sent with [evt.reply]; [markdown] and [allow_html] default
    to [True] and [False]. *)
Record Reply : Type := {
  reply_text : string;
  reply_markdown : bool;
  reply_allow_html : bool
}.

Inductive LogRecord : Type :=
  | LogWarning (pat room : string)     (* "Failed to compile pattern %s in room %s" *)
  | LogException (msg : string).

(** The plugin object, the configuration file behind [self.config], and
    what the plugin has emitted so far: replies, calls of
    [client.send_state_event] with the content passed, log records. *)
Record World : Type := {
  self : AltAliasBot;
  disk : Config;
  replies : list Reply;
  state_events : list (RoomID * CanonicalAliasStateEventContent);
  log : list LogRecord
}.

Record RoomAliasInfo : Type := { alias_room_id : RoomID }.

Record PowerLevels : Type := {
  get_user_level : UserID -> Z;
  (** [get_event_level(EventType.ROOM_CANONICAL_ALIAS)] *)
  canonical_alias_level : Z
}.

(** The homeserver as seen through [self.client], and the value of the
    constructor call [CanonicalAliasStateEventContent()]. *)
Class Client : Type := {
  get_room_alias : RoomAlias -> result RoomAliasInfo;
  get_canonical_alias_event : RoomID -> result CanonicalAliasStateEventContent;
  get_power_levels_event : RoomID -> result PowerLevels;
  send_state_event : RoomID -> CanonicalAliasStateEventContent -> result unit;
  empty_content : CanonicalAliasStateEventContent
}.

(** Handlers: state passing over [World], with exceptions. *)
Definition M (A : Type) : Type := World -> result A * World.

Definition ret {A} (a : A) : M A := fun w => (Return a, w).
Definition raise {A} (e : exn) : M A := fun w => (Raise e, w).
Definition bind {A B} (m : M A) (k : A -> M B) : M B :=
  fun w => match m w with
           | (Return a, w') => k a w'
           | (Raise e, w') => (Raise e, w')
           end.
Definition lift {A} (r : result A) : M A := fun w => (r, w).
Definition get : M World := fun w => (Return w, w).
Definition put (w : World) : M unit := fun _ => (Return tt, w).

Declare Scope handler_scope.
Delimit Scope handler_scope with handler.
Notation "x <- m ;; k" := (bind m (fun x => k))
  (at level 100, m at next level, right associativity) : handler_scope.
Notation "m ;; k" := (bind m (fun _ => k))
  (at level 100, right associativity) : handler_scope.
Local Open Scope handler_scope.

Definition set_self (b : AltAliasBot) (w : World) : World :=
  {| self := b; disk := disk w; replies := replies w;
     state_events := state_events w; log := log w |}.

Definition set_rooms (rs : gmap RoomID RoomInfo) (b : AltAliasBot) : AltAliasBot :=
  {| config := config b; _command := _command b; _aliases := _aliases b;
     _rooms := rs |}.

Definition emit (r : Reply) : M unit :=
  fun w => (Return tt,
            {| self := self w; disk := disk w; replies := replies w ++ [r];
               state_events := state_events w; log := log w |}).

(** [evt.reply(text)] *)
Definition reply (text : string) : M unit :=
  emit {| reply_text := text; reply_markdown := true; reply_allow_html := false |}.

(** [evt.reply(text, allow_html=True, markdown=False)] *)
Definition reply_html (text : string) : M unit :=
  emit {| reply_text := text; reply_markdown := false; reply_allow_html := true |}.

Definition log_record (r : LogRecord) : M unit :=
  fun w => (Return tt,
            {| self := self w; disk := disk w; replies := replies w;
               state_events := state_events w; log := log w ++ [r] |}).

(** [html.escape(s)] with its default [quote=True]. *)
Fixpoint html_escape (s : string) : string :=
  match s with
  | EmptyString => EmptyString
  | String a s' =>
      (if Ascii.eqb a "&" then "&amp;"
       else if Ascii.eqb a "<" then "&lt;"
       else if Ascii.eqb a ">" then "&gt;"
       else if Ascii.eqb a (ascii_of_nat 34) then "&quot;"
       else if Ascii.eqb a "'" then "&#x27;"
       else String a EmptyString) +:+ html_escape s'
  end.

Definition mem (x : string) (l : list string) : bool := bool_decide (x ∈ l).

(** ** The plugin's methods *)

Section Plugin.
Context `{E : RegexEngine} `{C : Client}.

(** The body of the inner loop of [on_external_config_update]:
    [try: formats.append(re.compile(pattern))], with a warning logged on
    [re.error]. *)
Definition load_pattern (room : RoomID) (acc : RoomInfo * list LogRecord)
    (pat : string) : RoomInfo * list LogRecord :=
  let '(ri, lg) := acc in
  match re_compile pat with
  | Some regex => ({| formats := formats ri ++ [regex] |}, lg)
  | None => (ri, lg ++ [LogWarning pat room])
  end.

(** One room of [on_external_config_update]: a fresh [RoomInfo], then
    the loop over [info.get("formats", [])]. *)
Definition load_room (room : RoomID) (info : RoomConfig)
  : RoomInfo * list LogRecord :=
  foldl (load_pattern room) ({| formats := [] |}, [])
        (default [] (cfg_formats info)).

(** [AltAliasBot.on_external_config_update]: [load_and_update] reads the
    configuration file, then the plugin's fields are rebuilt from it,
    [_rooms] from the empty mapping.  The rooms are visited in the order
    of [map_fold], which decides nothing but the order of the warnings
    of different rooms in the log. *)
Definition on_external_config_update : M unit :=
  fun w =>
    let cfg := disk w in
    let '(rs, lg) :=
      map_fold (fun room info '(rs, lg) =>
                  let '(ri, lg') := load_room room info in
                  (<[room := ri]> rs, lg ++ lg'))
               (∅, []) (rooms cfg) in
    (Return tt,
     {| self := {| config := cfg;
                   _command := fst (command cfg);
                   _aliases := list_to_set (fst (command cfg) :: snd (command cfg));
                   _rooms := rs |};
        disk := disk w; replies := replies w;
        state_events := state_events w; log := log w ++ lg |}).

(** [AltAliasBot.start] *)
Definition start : M unit := on_external_config_update.

(** [AltAliasBot.save_rooms]: the rule sets are written into
    [config["rooms"]] as pattern strings and the file is saved. *)
Definition save_rooms : M unit :=
  fun w =>
    let b := self w in
    let cfg :=
      {| command := command (config b); admins := admins (config b);
         require_lowercase := require_lowercase (config b);
         rooms := (fun info =>
                     {| cfg_formats := Some (map pattern (formats info)) |})
                  <$> _rooms b |} in
    (Return tt,
     {| self := {| config := cfg; _command := _command b;
                   _aliases := _aliases b; _rooms := _rooms b |};
        disk := cfg; replies := replies w;
        state_events := state_events w; log := log w |}).

(** [AltAliasBot._validate_alias] *)
Definition _validate_alias (evt : MessageEvent) (alias : RoomAlias) : M bool :=
  match _get_localpart alias with
  | Raise (ValueError _) => reply "That is not a valid room alias" ;; ret false
  | Raise e => raise e
  | Return localpart =>
      w <- get ;;
      if negb (Str.islower localpart) && require_lowercase (config (self w))
      then reply "That alias localpart is not in lowercase" ;; ret false
      else
        match get_room_alias alias with
        | Raise (MNotFound _) => reply "That alias does not exist" ;; ret false
        | Raise _ => reply "Failed to get alias info" ;; ret false
        | Return alias_info =>
            if String.eqb (alias_room_id alias_info) (room_id evt) then ret true
            else reply "That alias does not point to this room" ;; ret false
        end
  end.

(** [AltAliasBot._get_existing_aliases] *)
Definition _get_existing_aliases (evt : MessageEvent)
  : M (option CanonicalAliasStateEventContent) :=
  match get_canonical_alias_event (room_id evt) with
  | Return existing_event => ret (Some existing_event)
  | Raise (MNotFound _) => ret (Some empty_content)
  | Raise e =>
      match matrix_request_error e with
      | Some message =>
          reply ("Failed to get current aliases: " +:+ message) ;; ret None
      | None =>
          log_record (LogException
            ("Failed to get m.room.canonical_alias in " +:+ room_id evt)) ;;
          reply "Failed to get current aliases (see logs for more details)" ;;
          ret None
      end
  end.

(** [content.alt_aliases.append(alias)] *)
Definition append_alias (content : CanonicalAliasStateEventContent)
    (alias : RoomAlias) : CanonicalAliasStateEventContent :=
  {| canonical_alias := canonical_alias content;
     alt_aliases := alt_aliases content ++ [alias] |}.

(** [self.client.send_state_event(room, ROOM_CANONICAL_ALIAS, content)] *)
Definition client_send (room : RoomID) (content : CanonicalAliasStateEventContent)
  : M unit :=
  fun w => (send_state_event room content,
            {| self := self w; disk := disk w; replies := replies w;
               state_events := state_events w ++ [(room, content)];
               log := log w |}).

(** [AltAliasBot._publish_aliases] *)
Definition _publish_aliases (evt : MessageEvent) (alias : RoomAlias)
    (content : CanonicalAliasStateEventContent) : M unit :=
  let content := append_alias content alias in
  fun w =>
    match client_send (room_id evt) content w with
    | (Return _, w') => (Return tt, w')
    | (Raise (MForbidden _), w') =>
        reply "I don't have the permission to publish aliases :(" w'
    | (Raise e, w') =>
        match matrix_request_error e with
        | Some message => reply ("Failed to publish alias: " +:+ message) w'
        | None =>
            (log_record (LogException ("Failed to publish alias " +:+ alias)) ;;
             reply "Failed to publish alias (see logs for more details)") w'
        end
    end.

(** [AltAliasBot.add_alias], the [publish] subcommand *)
Definition add_alias (evt : MessageEvent) (alias : RoomAlias) : M unit :=
  valid <- _validate_alias evt alias ;;
  if negb valid then ret tt
  else
    existing_content <- _get_existing_aliases evt ;;
    match existing_content with
    | None => ret tt
    | Some existing_content =>
        if mem alias (alt_aliases existing_content)
        then reply "That alias is already published in this room"
        else
          w <- get ;;
          allowed <- lift (_is_allowed (self w) (room_id evt) alias existing_content) ;;
          if negb allowed then reply "That alias is not allowed in this room"
          else _publish_aliases evt alias existing_content
    end.

(** [AltAliasBot.allow_format], the [allow] subcommand *)
Definition allow_format (evt : MessageEvent) (regex : string) : M unit :=
  w <- get ;;
  permitted <-
    (if mem (sender evt) (admins (config (self w))) then ret true
     else
       powers <- lift (get_power_levels_event (room_id evt)) ;;
       if (get_user_level powers (sender evt) <? canonical_alias_level powers)%Z
       then reply "You don't have the permission to manage aliases in this room" ;;
            ret false
       else ret true) ;;
  if negb permitted then ret tt
  else
    (* try: room = self._rooms[evt.room_id]
       except KeyError: room = RoomInfo(formats=[]); self._rooms[...] = room *)
    w <- get ;;
    room <- match _rooms (self w) !! room_id evt with
            | Some room => ret room
            | None =>
                let room := {| formats := [] |} in
                put (set_self (set_rooms (<[room_id evt := room]> (_rooms (self w)))
                                         (self w)) w) ;;
                ret room
            end ;;
    (* room.formats.append(re.compile(regex)): [room] is the object held
       by [self._rooms], so the append shows in the mapping *)
    match re_compile regex with
    | None => raise ReError
    | Some compiled =>
        w <- get ;;
        put (set_self (set_rooms (<[room_id evt :=
                                     {| formats := formats room ++ [compiled] |}]>
                                    (_rooms (self w)))
                                 (self w)) w) ;;
        save_rooms ;;
        reply_html ("Added <code>" +:+ html_escape regex +:+
                    "</code> as an allowed alias format")
    end.

(** [AltAliasBot.allowed_formats], the [allowed] subcommand *)
Definition allowed_formats (evt : MessageEvent) : M unit :=
  w <- get ;;
  match _rooms (self w) !! room_id evt with
  | None =>
      reply ("This room does not have special alias rules. Aliases with the same " +:+
             "localpart as any of the existing aliases can be published.")
  | Some room =>
      let allowed :=
        foldr (fun regex rest =>
                 "<li><code>" +:+ html_escape (pattern regex) +:+ "</code></li>" +:+ rest)
              "" (formats room) in
      reply_html ("<p>This room allows aliases matching " +:+
                  "the following regular expressions:</p>" +:+
                  "<ul>" +:+ allowed +:+ "</ul>")
  end.

End Plugin.

(** ** The command and its names *)

(** The name of the [altalias] command: [lambda self: self._command]. *)
Definition altalias_name (self : AltAliasBot) : string := _command self.

(** Its aliases: [lambda self, val: val in self._aliases]. *)
Definition altalias_accepts (self : AltAliasBot) (val : string) : bool :=
  bool_decide (val ∈ _aliases self).

(** Every pattern held by a rule set is the compiled form of its source. *)
Definition rooms_compiled `{E : RegexEngine} (rs : gmap RoomID RoomInfo) : Prop :=
  forall room ri regex,
    rs !! room = Some ri -> regex ∈ formats ri ->
    re_compile (pattern regex) = Some regex.

(** ** What a handler leaves alone, and what it was given *)

(** [w'] differs from [w] at most in replies and log records. *)
Definition silent (w w' : World) : Prop :=
  self w' = self w /\ disk w' = disk w /\ state_events w' = state_events w.

(** [existing] is what [_get_existing_aliases] obtains for the room of
    [evt]: the state event of the room, or the default content when the
    room has none. *)
Definition fetched `{C : Client} (evt : MessageEvent)
    (existing : CanonicalAliasStateEventContent) : Prop :=
  get_canonical_alias_event (room_id evt) = Return existing \/
  ((exists message,
      get_canonical_alias_event (room_id evt) = Raise (MNotFound message)) /\
   existing = empty_content).

(** Between [w] and [w'] exactly [n] replies were sent. *)
Definition replied (n : nat) (w w' : World) : Prop :=
  exists new, replies w' = replies w ++ new /\ length new = n.

(** The sender passes the permission check of [allow_format]. *)
Definition permitted `{C : Client} (evt : MessageEvent) (w : World) : Prop :=
  sender evt ∈ admins (config (self w)) \/
  exists powers,
    get_power_levels_event (room_id evt) = Return powers /\
    (canonical_alias_level powers <= get_user_level powers (sender evt))%Z.

(** ** A small engine for closed examples

    A backtracking matcher for a fragment of the [re] syntax: literal
    characters, [.], backslash escapes of punctuation, a greedy [*] after
    one character, [^] in front and [$] at the end.  Whatever else the
    pattern holds is refused, as [re.compile] refuses an unbalanced
    parenthesis.  The clock charges a thousandth of a time unit for each
    step of the matcher. *)

Module MiniRe.

Inductive atom : Type := Lit (c : ascii) | AnyChar.

Definition is_alnum (c : ascii) : bool :=
  let n := nat_of_ascii c in
  ((48 <=? n) && (n <=? 57)) || Str.is_upper c || Str.is_lower c.

Definition is_special (c : ascii) : bool :=
  Str.contains c "()[]{}+?|^$*".

Fixpoint parse (s : string) : option (list (atom * bool)) :=
  match s with
  | EmptyString => Some []
  | String c s1 =>
      if Ascii.eqb c "\" then
        match s1 with
        | EmptyString => None
        | String e s2 =>
            if is_alnum e then None
            else match s2 with
                 | String "*" r' => option_map (cons (Lit e, true)) (parse r')
                 | _ => option_map (cons (Lit e, false)) (parse s2)
                 end
        end
      else if Ascii.eqb c "$" then
        match s1 with EmptyString => Some [] | _ => None end
      else if is_special c then None
      else
        let a := if Ascii.eqb c "." then AnyChar else Lit c in
        match s1 with
        | String "*" r' => option_map (cons (a, true)) (parse r')
        | _ => option_map (cons (a, false)) (parse s1)
        end
  end.

Definition compile (s : string) : option (list (atom * bool)) :=
  match s with
  | String "^" s' => parse s'
  | _ => parse s
  end.

Definition atom_matches (a : atom) (c : ascii) : bool :=
  match a with
  | Lit x => Ascii.eqb x c
  | AnyChar => negb (Ascii.eqb c (ascii_of_nat 10))
  end.

(** Whether the program matches the whole of [s], and the steps taken. *)
Fixpoint run (prog : list (atom * bool)) (s : string) : bool * N :=
  match prog with
  | [] => (match s with EmptyString => true | _ => false end, 1%N)
  | (a, false) :: rest =>
      match s with
      | String c s' =>
          if atom_matches a c
          then let '(b, n) := run rest s' in (b, N.succ n)
          else (false, 1%N)
      | EmptyString => (false, 1%N)
      end
  | (a, true) :: rest =>
      (fix star (s : string) : bool * N :=
         match s with
         | String c s' =>
             if atom_matches a c then
               let '(b, n) := star s' in
               if b then (true, N.succ n)
               else let '(b', n') := run rest s in (b', N.succ (n + n'))
             else let '(b, n) := run rest s in (b, N.succ n)
         | EmptyString => let '(b, n) := run rest s in (b, N.succ n)
         end) s
  end.

Definition fullmatch (regex : Pattern) (s : string) : bool :=
  match compile (pattern regex) with
  | Some prog => fst (run prog s)
  | None => false
  end.

Definition duration (regex : Pattern) (s : string) : Q :=
  match compile (pattern regex) with
  | Some prog => Z.of_N (snd (run prog s)) # 1000
  | None => 0
  end.

#[export] Instance engine : RegexEngine.
Proof.
  refine {| re_valid := fun s => match compile s with Some _ => true | None => false end;
            re_fullmatch := fullmatch;
            re_duration := duration;
            re_duration_nonneg := _ |}.
  intros regex s. unfold duration.
  destruct (compile (pattern regex)); [|apply Qle_refl].
  unfold Qle; simpl. lia.
Defined.

End MiniRe.

(** ** Closed instances: a room, its rules, a homeserver *)

Module Sample.
Import MiniRe.

Definition ops : RoomID := "!ops:example.org".
Definition admin : UserID := "@admin:example.org".

Definition team_rule : string := "^#team-.*:example\.org$".
Definition slow_rule : string := ".*.*.*.*!".
Definition broken_rule : string := "(".

Definition rules (sources : list string) : RoomInfo :=
  {| formats := map Build_Pattern sources |}.

Definition base_config (rs : gmap RoomID RoomConfig) : Config :=
  {| command := ("altalias", ["aa"]); admins := [admin];
     require_lowercase := true; rooms := rs |}.

Definition bot (rs : gmap RoomID RoomInfo) : AltAliasBot :=
  {| config := base_config ∅; _command := "altalias";
     _aliases := {["altalias"; "aa"]}; _rooms := rs |}.

Definition world (rs : gmap RoomID RoomInfo) (on_disk : gmap RoomID RoomConfig)
  : World :=
  {| self := bot rs; disk := base_config on_disk; replies := [];
     state_events := []; log := [] |}.

Definition existing : CanonicalAliasStateEventContent :=
  {| canonical_alias := Some "#room:example.org";
     alt_aliases := ["#room:matrix.org"; "#Lobby:example.org"] |}.

(** The content of a room that has alternate aliases and no canonical
    alias. *)
Definition no_canonical : CanonicalAliasStateEventContent :=
  {| canonical_alias := None; alt_aliases := ["#room:matrix.org"] |}.

(** A homeserver on which every alias resolves to [ops], or none does. *)
Definition homeserver (resolves : bool) : Client :=
  {| get_room_alias := fun _ =>
       if resolves then Return {| alias_room_id := ops |}
       else Raise (MNotFound "Room alias not found");
     get_canonical_alias_event := fun _ => Return existing;
     get_power_levels_event := fun _ =>
       Return {| get_user_level := fun _ => 0%Z; canonical_alias_level := 50%Z |};
     send_state_event := fun _ _ => Return tt;
     empty_content := {| canonical_alias := None; alt_aliases := [] |} |}.

(** A homeserver on which every alias resolves to [ops] and the room has
    no [m.room.canonical_alias] event. *)
Definition fresh_room : Client :=
  {| get_room_alias := fun _ => Return {| alias_room_id := ops |};
     get_canonical_alias_event := fun _ => Raise (MNotFound "Event not found");
     get_power_levels_event := fun _ =>
       Return {| get_user_level := fun _ => 0%Z; canonical_alias_level := 50%Z |};
     send_state_event := fun _ _ => Return tt;
     empty_content := {| canonical_alias := None; alt_aliases := [] |} |}.

(** A homeserver that answers no request. *)
Definition unreachable : Client :=
  {| get_room_alias := fun _ => Raise OtherException;
     get_canonical_alias_event := fun _ => Raise OtherException;
     get_power_levels_event := fun _ => Raise OtherException;
     send_state_event := fun _ _ => Raise OtherException;
     empty_content := {| canonical_alias := None; alt_aliases := [] |} |}.

End Sample.

(** * Properties *)

(** ** Strings *)

Lemma index_app_fresh c l d :
  Str.index c l = None ->
  Str.index c (l +:+ String c d) = Some (String.length l).
Proof.
  induction l as [|a l IH]; simpl.
  - intros _. now rewrite Ascii.eqb_refl.
  - destruct (Ascii.eqb a c); [discriminate|].
    destruct (Str.index c l); [discriminate|].
    intros _. now rewrite IH.
Qed.

Lemma index_split c s n :
  Str.index c s = Some n ->
  exists l d, s = l +:+ String c d /\ Str.index c l = None /\ String.length l = n.
Proof.
  revert n. induction s as [|a s IH]; simpl; intros n Hn; [discriminate|].
  destruct (Ascii.eqb a c) eqn:E.
  - apply Ascii.eqb_eq in E. subst a. inversion Hn; subst n.
    exists "", s. auto.
  - destruct (Str.index c s) as [m|] eqn:Hi; [|discriminate].
    inversion Hn; subst n.
    destruct (IH m eq_refl) as (l & d & -> & Hl & Hlen).
    exists (String a l), d. simpl. rewrite E, Hl, Hlen. auto.
Qed.

Lemma substring_prefix l r :
  substring 0 (String.length l) (l +:+ r) = l.
Proof. induction l as [|a l IH]; simpl; [now destruct r|now rewrite IH]. Qed.

Lemma length_app l r :
  String.length (l +:+ r) = String.length l + String.length r.
Proof. induction l as [|a l IH]; simpl; [reflexivity|now rewrite IH]. Qed.

Lemma contains_index c s : Str.contains c s = false <-> Str.index c s = None.
Proof. unfold Str.contains. destruct (Str.index c s); split; congruence. Qed.

(** ** Alias syntax *)

(** [_get_localpart] on a string that starts with [#]. *)
Lemma get_localpart_hash t :
  _get_localpart (String "#" t) =
  match Str.index ":" t with
  | None => Raise (ValueError "Alias must contain domain separator")
  | Some m =>
      if S m =? String.length t
      then Raise (ValueError "Alias must contain domain")
      else Return (substring 0 m t)
  end.
Proof.
  unfold _get_localpart, Str.slice.
  change (Str.index ":" (String "#" t)) with (option_map S (Str.index ":" t)).
  change (String.length (String "#" t) - 1) with (String.length t - 0).
  rewrite Nat.sub_0_r.
  destruct (Str.index ":" t) as [m|]; simpl; [|reflexivity].
  now rewrite Nat.sub_0_r.
Qed.

(** What [_get_localpart] accepts, and what it returns there. *)
Lemma get_localpart_Return alias localpart :
  _get_localpart alias = Return localpart <->
  exists domain,
    alias = String "#" (localpart +:+ String ":" domain) /\
    domain <> "" /\ Str.index ":" localpart = None.
Proof.
  split.
  - destruct alias as [|a0 t]; [discriminate|].
    destruct (Ascii.eqb a0 "#") eqn:E0.
    2:{ unfold _get_localpart. rewrite E0. discriminate. }
    apply Ascii.eqb_eq in E0. subst a0. rewrite get_localpart_hash.
    destruct (Str.index ":" t) as [m|] eqn:Hi; [|discriminate].
    destruct (index_split _ _ _ Hi) as (l & d & -> & Hl & Hlen).
    destruct (Nat.eqb_spec (S m) (String.length (l +:+ String ":" d)))
      as [Heq|Hne]; [discriminate|].
    rewrite length_app in Hne. simpl in Hne.
    intros [= <-]. exists d. subst m.
    rewrite substring_prefix. repeat split; auto.
    intros ->. simpl in Hne. lia.
  - intros (d & -> & Hd & Hl). rewrite get_localpart_hash.
    rewrite (index_app_fresh _ _ _ Hl), length_app.
    destruct (Nat.eqb_spec (S (String.length localpart))
                (String.length localpart + String.length (String ":" d)))
      as [Heq|Hne].
    + destruct d; [congruence|simpl in Heq; lia].
    + now rewrite substring_prefix.
Qed.

(** [_get_localpart] raises nothing but [ValueError]. *)
Lemma get_localpart_Raise alias e :
  _get_localpart alias = Raise e -> exists msg, e = ValueError msg.
Proof.
  unfold _get_localpart. destruct alias as [|a0 t]; [intros [= <-]; eauto|].
  destruct (negb (Ascii.eqb a0 "#")); [intros [= <-]; eauto|].
  destruct (Str.index ":" (String a0 t)); [|intros [= <-]; eauto].
  destruct (_ =? _); [intros [= <-]; eauto|discriminate].
Qed.

(** C2, as the code has it: [_get_localpart] returns [local] on
    [#local:domain] when [domain] is not empty and [local] holds no [:]
    (whether or not [local] is empty), and it fails with [ValueError] on
    every string that does not start with [#], or holds no [:], or whose
    domain segment, the text after the first [:], is empty. *)
Theorem get_localpart_extraction (local domain s : string) :
  (domain <> "" -> Str.contains ":" local = false ->
   _get_localpart ("#" +:+ local +:+ ":" +:+ domain) = Return local)
  /\
  ((forall t, s <> String "#" t) \/
   Str.contains ":" s = false \/
   (exists l, s = "#" +:+ l +:+ ":" /\ Str.contains ":" l = false) ->
   exists msg, _get_localpart s = Raise (ValueError msg)).
Proof.
  split.
  - intros Hd Hl. apply get_localpart_Return. exists domain.
    rewrite contains_index in Hl. auto.
  - intros Hs.
    destruct (_get_localpart s) as [lp|e] eqn:Hg.
    + exfalso. apply get_localpart_Return in Hg as (d & -> & Hd & Hl).
      destruct Hs as [Hs|[Hs|(l & Hs & Hc)]].
      * now apply (Hs (lp +:+ String ":" d)).
      * rewrite contains_index in Hs. simpl in Hs.
        rewrite (index_app_fresh _ _ _ Hl) in Hs. discriminate.
      * rewrite contains_index in Hc. simpl in Hs. injection Hs as Hs.
        assert (Hi : Str.index ":" (lp +:+ String ":" d) =
                     Str.index ":" (l +:+ ":")) by now rewrite Hs.
        rewrite !index_app_fresh in Hi by assumption.
        injection Hi as Hlen.
        apply (f_equal String.length) in Hs. rewrite !length_app in Hs.
        simpl in Hs. destruct d; [congruence|simpl in Hs; lia].
    + destruct (get_localpart_Raise _ _ Hg) as [msg ->]. eauto.
Qed.

Lemma get_localpart_extraction_witness :
  _get_localpart "#room:example.org" = Return "room" /\
  exists msg, _get_localpart "#room:" = Raise (ValueError msg).
Proof.
  destruct (get_localpart_extraction "room" "example.org" "#room:") as [Hok Hbad].
  split.
  - apply Hok; [discriminate|reflexivity].
  - apply Hbad. right; right. exists "room". split; reflexivity.
Defined.

(** C2 as stated fails: an alias whose local segment is empty passes the
    check and yields the empty localpart. *)
Lemma get_localpart_empty_local :
  _get_localpart "#:example.org" = Return "" /\
  ~ (exists e, _get_localpart "#:example.org" = Raise e).
Proof. split; [reflexivity|]. intros [e He]. discriminate He. Qed.

(** ** The deadline *)

Lemma Qle_bool_false (x y : Q) : Qle_bool x y = false -> (y < x)%Q.
Proof.
  intros Hb. apply Qnot_le_lt. intros Hle.
  apply Qle_bool_iff in Hle. congruence.
Qed.

Lemma deadline_floor n : (2 <= deadline n)%Q.
Proof. unfold deadline. apply Q.le_max_r. Qed.

Section DecisionFacts.
Context `{E : RegexEngine}.

Lemma evaluation_time_nonneg fmts alias : (0 <= evaluation_time fmts alias)%Q.
Proof.
  induction fmts as [|regex rest IH]; simpl; [apply Qle_refl|].
  pose proof (re_duration_nonneg regex alias).
  destruct (re_fullmatch regex alias); lra.
Qed.

(** The timer fires: the loop is left by [TimeoutError]. *)
Lemma match_formats_timeout fmts alias :
  forall remaining,
    (0 < remaining)%Q ->
    (remaining <= evaluation_time fmts alias)%Q ->
    match_formats remaining fmts alias = Raise TimeoutError.
Proof.
  induction fmts as [|regex rest IH]; simpl; intros remaining Hpos Hle.
  - lra.
  - destruct (Qle_bool remaining (re_duration regex alias)) eqn:Hd;
      [reflexivity|].
    apply Qle_bool_false in Hd.
    destruct (re_fullmatch regex alias); [lra|].
    apply IH; lra.
Qed.

(** The timer does not fire: the loop answers whether a pattern matches. *)
Lemma match_formats_in_time fmts alias :
  forall remaining,
    (evaluation_time fmts alias < remaining)%Q ->
    match_formats remaining fmts alias =
    Return (existsb (fun regex => re_fullmatch regex alias) fmts).
Proof.
  induction fmts as [|regex rest IH]; simpl; intros remaining Hlt;
    [reflexivity|].
  pose proof (re_duration_nonneg regex alias) as Hd0.
  pose proof (evaluation_time_nonneg rest alias) as He0.
  destruct (Qle_bool remaining (re_duration regex alias)) eqn:Hd.
  - apply Qle_bool_iff in Hd. destruct (re_fullmatch regex alias); lra.
  - destruct (re_fullmatch regex alias); [reflexivity|].
    apply IH. lra.
Qed.

(** A returned [True] comes from a pattern that matched. *)
Lemma match_formats_true fmts alias :
  forall remaining,
    match_formats remaining fmts alias = Return true ->
    exists regex, regex ∈ fmts /\ re_fullmatch regex alias = true.
Proof.
  induction fmts as [|regex rest IH]; simpl; intros remaining Hr;
    [discriminate|].
  destruct (Qle_bool remaining (re_duration regex alias)); [discriminate|].
  destruct (re_fullmatch regex alias) eqn:Hm.
  - exists regex. split; [left|assumption].
  - destruct (IH _ Hr) as (r & Hin & Hr'). exists r. split; [now right|assumption].
Qed.

(** Patterns behind the first match are not evaluated. *)
Lemma match_formats_short_circuit pre regex post alias :
  Forall (fun p => re_fullmatch p alias = false) pre ->
  re_fullmatch regex alias = true ->
  forall remaining,
    match_formats remaining (pre ++ regex :: post) alias =
    match_formats remaining (pre ++ [regex]) alias.
Proof.
  intros Hpre Hm. induction Hpre as [|p pre Hp _ IH]; simpl; intros remaining.
  - now rewrite Hm.
  - rewrite Hp. destruct (Qle_bool remaining (re_duration p alias)); auto.
Qed.

Lemma existsb_fullmatch fmts alias :
  existsb (fun regex => re_fullmatch regex alias) fmts = true <->
  exists regex, regex ∈ fmts /\ re_fullmatch regex alias = true.
Proof.
  rewrite existsb_exists. split; intros (r & Hin & Hr); exists r;
    (split; [now apply list_elem_of_In|assumption]).
Qed.

(** [_is_allowed] on a room that has a rule set. *)
Lemma is_allowed_rules self room cfg alias existing_event :
  _rooms self !! room = Some cfg ->
  _is_allowed self room alias existing_event =
  match_formats (deadline (length (formats cfg))) (formats cfg) alias.
Proof. intros Hr. unfold _is_allowed, timeout. now rewrite Hr. Qed.

(** C1, as the code has it: when the deadline elapses while the rules
    of a room are evaluated, [_is_allowed] does not return a decision:
    the [TimeoutError] of the alarm handler reaches its caller. *)
Theorem is_allowed_deadline_elapsed self room cfg alias existing_event :
  _rooms self !! room = Some cfg ->
  deadline_elapses cfg alias ->
  _is_allowed self room alias existing_event = Raise TimeoutError.
Proof.
  intros Hr Hel. rewrite (is_allowed_rules _ _ _ _ _ Hr).
  apply match_formats_timeout; [|exact Hel].
  pose proof (deadline_floor (length (formats cfg))). lra.
Qed.

(** C4, as the code has it: on a room with a rule set, [_is_allowed]
    returns true only if some pattern fully matches the alias; when the
    deadline does not elapse it returns, and returns true exactly if
    some pattern fully matches; the patterns are tried in stored order
    and those behind the first match are not evaluated. *)
Theorem is_allowed_rule_set self room cfg alias existing_event :
  _rooms self !! room = Some cfg ->
  (_is_allowed self room alias existing_event = Return true ->
   exists regex, regex ∈ formats cfg /\ re_fullmatch regex alias = true)
  /\
  (~ deadline_elapses cfg alias ->
   exists b, _is_allowed self room alias existing_event = Return b /\
     (b = true <->
      exists regex, regex ∈ formats cfg /\ re_fullmatch regex alias = true))
  /\
  (forall pre regex post,
     formats cfg = pre ++ regex :: post ->
     Forall (fun p => re_fullmatch p alias = false) pre ->
     re_fullmatch regex alias = true ->
     _is_allowed self room alias existing_event =
     match_formats (deadline (length (formats cfg))) (pre ++ [regex]) alias).
Proof.
  intros Hr. rewrite (is_allowed_rules _ _ _ _ _ Hr). repeat split.
  - apply match_formats_true.
  - intros Hne. apply Qnot_le_lt in Hne.
    exists (existsb (fun regex => re_fullmatch regex alias) (formats cfg)).
    split; [now apply match_formats_in_time|apply existsb_fullmatch].
  - intros pre regex post -> Hpre Hm.
    now apply match_formats_short_circuit.
Qed.


End DecisionFacts.

(** ** Closed instances of the rule evaluation *)

Lemma is_allowed_deadline_elapsed_witness :
  _is_allowed (E := MiniRe.engine)
    (Sample.bot {[Sample.ops := Sample.rules [Sample.slow_rule]]})
    Sample.ops "#team-a:example.org" Sample.existing = Raise TimeoutError.
Proof.
  apply (is_allowed_deadline_elapsed (E := MiniRe.engine) _ _
           (Sample.rules [Sample.slow_rule])).
  - reflexivity.
  - apply Qle_bool_iff. vm_compute. reflexivity.
Defined.

(** C1 as stated fails: the deadline elapses on a pattern that backtracks
    for long, and [_is_allowed] raises instead of returning false. *)
Lemma is_allowed_timeout_not_deny :
  let cfg := Sample.rules [Sample.slow_rule] in
  let self := Sample.bot {[Sample.ops := cfg]} in
  _rooms self !! Sample.ops = Some cfg /\
  deadline_elapses (E := MiniRe.engine) cfg "#team-a:example.org" /\
  _is_allowed (E := MiniRe.engine) self Sample.ops "#team-a:example.org"
    Sample.existing <> Return false.
Proof.
  repeat split.
  - apply Qle_bool_iff. vm_compute. reflexivity.
  - vm_compute. discriminate.
Qed.

Lemma is_allowed_rule_set_witness :
  let cfg := Sample.rules [Sample.team_rule] in
  let self := Sample.bot {[Sample.ops := cfg]} in
  (exists b,
     _is_allowed (E := MiniRe.engine) self Sample.ops "#team-a:example.org"
       Sample.existing = Return b /\
     (b = true <->
      exists regex, regex ∈ formats cfg /\
        re_fullmatch (RegexEngine := MiniRe.engine) regex "#team-a:example.org" = true))
  /\
  _is_allowed (E := MiniRe.engine) self Sample.ops "#team-a:example.org"
    Sample.existing =
  match_formats (E := MiniRe.engine) (deadline 1)
    [Build_Pattern Sample.team_rule] "#team-a:example.org".
Proof.
  intros cfg self.
  destruct (is_allowed_rule_set (E := MiniRe.engine) self Sample.ops cfg
              "#team-a:example.org" Sample.existing eq_refl) as (_ & Hin & Hsc).
  split.
  - apply Hin. intros Hel. apply Qle_bool_iff in Hel. vm_compute in Hel.
    discriminate Hel.
  - apply (Hsc [] (Build_Pattern Sample.team_rule) []);
      [reflexivity|constructor|reflexivity].
Defined.

(** The rule set [^#team-.*:example\.org$] allows [#team-a:example.org]
    and denies [#other:example.org]. *)
Example team_rule_allows :
  let self := Sample.bot {[Sample.ops := Sample.rules [Sample.team_rule]]} in
  _is_allowed (E := MiniRe.engine) self Sample.ops "#team-a:example.org"
    Sample.existing = Return true /\
  _is_allowed (E := MiniRe.engine) self Sample.ops "#other:example.org"
    Sample.existing = Return false.
Proof. split; vm_compute; reflexivity. Qed.

(** C4 as stated fails: the second pattern fully matches the alias, but
    the deadline elapses on the first one and [_is_allowed] does not
    return true. *)
Lemma is_allowed_match_after_deadline :
  let cfg := Sample.rules [Sample.slow_rule; Sample.team_rule] in
  let self := Sample.bot {[Sample.ops := cfg]} in
  _rooms self !! Sample.ops = Some cfg /\
  deadline_elapses (E := MiniRe.engine) cfg "#team-a:example.org" /\
  (exists regex, regex ∈ formats cfg /\
     re_fullmatch (RegexEngine := MiniRe.engine) regex "#team-a:example.org" = true) /\
  _is_allowed (E := MiniRe.engine) self Sample.ops "#team-a:example.org"
    Sample.existing <> Return true.
Proof.
  split; [reflexivity|]. split; [|split].
  - apply Qle_bool_iff. vm_compute. reflexivity.
  - exists (Build_Pattern Sample.team_rule). split; [|reflexivity].
    right. left.
  - vm_compute. discriminate.
Qed.


(** ** Rooms without rules *)

Lemma localpart_matches_spec alias localpart :
  exists b, _localpart_matches alias localpart = Return b /\
            (b = true <-> _get_localpart alias = Return localpart).
Proof.
  unfold _localpart_matches.
  destruct (_get_localpart alias) as [l|e] eqn:Hg.
  - exists (String.eqb localpart l). split; [reflexivity|].
    rewrite String.eqb_eq. split; congruence.
  - destruct (get_localpart_Raise _ _ Hg) as [msg ->].
    exists false. split; [reflexivity|]. split; discriminate.
Qed.

Lemma any_localpart_matches_spec aliases localpart :
  exists b, any_localpart_matches aliases localpart = Return b /\
            (b = true <->
             exists a, a ∈ aliases /\ _get_localpart a = Return localpart).
Proof.
  induction aliases as [|a rest IH]; simpl.
  - exists false. split; [reflexivity|]. split; [discriminate|].
    intros (a & Hin & _). inversion Hin.
  - destruct (localpart_matches_spec a localpart) as (b & -> & Hb). simpl.
    destruct b.
    + exists true. split; [reflexivity|]. split; [|reflexivity].
      intros _. exists a. split; [left|now apply Hb].
    + destruct IH as (b' & -> & Hb'). exists b'. split; [reflexivity|].
      rewrite Hb'. split.
      * intros (x & Hin & Hx). exists x. split; [now right|assumption].
      * intros (x & Hin & Hx). inversion Hin; subst.
        -- apply Hb in Hx. discriminate.
        -- eauto.
Qed.

Lemma localpart_matches_of_Some alias localpart :
  _localpart_matches_of (Some alias) localpart = _localpart_matches alias localpart.
Proof. reflexivity. Qed.

(** In a room without rules whose content has a canonical alias, for a
    candidate that passes the syntax check, [_is_allowed] returns, and
    returns true exactly if the candidate's localpart is, as a string,
    the localpart of the canonical alias or of one of the alternate
    aliases. *)
Lemma is_allowed_no_rules `{E : RegexEngine} self room alias localpart
    existing_event canonical :
  _rooms self !! room = None ->
  _get_localpart alias = Return localpart ->
  canonical_alias existing_event = Some canonical ->
  exists b,
    _is_allowed self room alias existing_event = Return b /\
    (b = true <->
     _get_localpart canonical = Return localpart \/
     exists a, a ∈ alt_aliases existing_event /\
               _get_localpart a = Return localpart).
Proof.
  intros Hr Hl Hc. unfold _is_allowed. rewrite Hr, Hl, Hc. simpl.
  rewrite localpart_matches_of_Some.
  destruct (localpart_matches_spec canonical localpart) as (b & -> & Hb). simpl.
  destruct b.
  - exists true. split; [reflexivity|]. split; [|reflexivity].
    intros _. left. now apply Hb.
  - destruct (any_localpart_matches_spec (alt_aliases existing_event) localpart)
      as (b' & -> & Hb').
    exists b'. split; [reflexivity|]. rewrite Hb'. split; [now right|].
    intros [Hcan|Ha]; [|assumption]. apply Hb in Hcan. discriminate.
Qed.

Lemma is_allowed_no_rules_witness :
  exists b,
    _is_allowed (E := MiniRe.engine) (Sample.bot ∅) Sample.ops "#room:other.org"
      Sample.existing = Return b /\
    (b = true <->
     _get_localpart "#room:example.org" = Return "room" \/
     exists a, a ∈ alt_aliases Sample.existing /\ _get_localpart a = Return "room").
Proof.
  apply (is_allowed_no_rules (E := MiniRe.engine) (Sample.bot ∅) Sample.ops
           "#room:other.org" "room" Sample.existing "#room:example.org");
    reflexivity.
Defined.

(** C3 fails on the code where the room has no canonical alias: in a room
    without rules, for a candidate that passes the syntax check,
    [_is_allowed] then does not return: [_get_localpart] is called on
    [None] and its [TypeError] passes the [except ValueError] clause of
    [_localpart_matches], whatever the alternate aliases are. *)
Theorem is_allowed_no_canonical_alias `{E : RegexEngine} self room alias localpart
    existing_event :
  _rooms self !! room = None ->
  _get_localpart alias = Return localpart ->
  canonical_alias existing_event = None ->
  _is_allowed self room alias existing_event = Raise TypeError.
Proof.
  intros Hr Hl Hc. unfold _is_allowed. now rewrite Hr, Hl, Hc.
Qed.

Lemma is_allowed_no_canonical_alias_witness :
  _is_allowed (E := MiniRe.engine) (Sample.bot ∅) Sample.ops "#room:other.org"
    Sample.no_canonical = Raise TypeError /\
  (exists a, a ∈ alt_aliases Sample.no_canonical /\
             _get_localpart a = Return "room").
Proof.
  split.
  - apply (is_allowed_no_canonical_alias (E := MiniRe.engine) (Sample.bot ∅)
             Sample.ops "#room:other.org" "room" Sample.no_canonical);
      reflexivity.
  - exists "#room:matrix.org". split; [left|reflexivity].
Defined.

(** The comparison of localparts is exact: case matters. *)
Example is_allowed_case_sensitive :
  _is_allowed (E := MiniRe.engine) (Sample.bot ∅) Sample.ops "#room:other.org"
    Sample.existing = Return true /\
  _is_allowed (E := MiniRe.engine) (Sample.bot ∅) Sample.ops "#lobby:other.org"
    Sample.existing = Return false /\
  _is_allowed (E := MiniRe.engine) (Sample.bot ∅) Sample.ops "#Lobby:other.org"
    Sample.existing = Return true.
Proof. repeat split; vm_compute; reflexivity. Qed.

(** ** Loading and saving the rule sets *)

Section PersistenceFacts.
Context `{E : RegexEngine} `{C : Client}.

Lemma load_pattern_fold room pats :
  forall ri lg,
    foldl (load_pattern room) (ri, lg) pats =
    ({| formats := formats ri ++ map Build_Pattern (List.filter re_valid pats) |},
     lg ++ map (fun pat => LogWarning pat room)
               (List.filter (fun pat => negb (re_valid pat)) pats)).
Proof.
  induction pats as [|pat pats IH]; simpl; intros ri lg.
  - rewrite !app_nil_r. now destruct ri.
  - unfold re_compile. destruct (re_valid pat); simpl; rewrite IH; simpl;
      now rewrite <- ?app_assoc.
Qed.

Lemma load_room_spec room info :
  load_room room info =
  ({| formats := map Build_Pattern
                   (List.filter re_valid (default [] (cfg_formats info))) |},
   map (fun pat => LogWarning pat room)
       (List.filter (fun pat => negb (re_valid pat))
                    (default [] (cfg_formats info)))).
Proof. unfold load_room. now rewrite load_pattern_fold. Qed.

(** The mapping built by a reload: every room of the file, with the
    rule set [load_room] gives it, and the warnings of each room. *)
Lemma reload_rooms w :
  let w' := snd (on_external_config_update w) in
  (forall room,
     _rooms (self w') !! room =
     (fun info => fst (load_room room info)) <$> rooms (disk w) !! room) /\
  (forall room info r,
     rooms (disk w) !! room = Some info ->
     r ∈ snd (load_room room info) -> r ∈ log w').
Proof.
  unfold on_external_config_update.
  match goal with |- context [map_fold ?f ?b ?m] =>
    pose proof (map_fold_weak_ind
      (fun acc (stored : gmap RoomID RoomConfig) =>
         (forall room, fst acc !! room =
                       (fun info => fst (load_room room info)) <$> stored !! room) /\
         (forall room info r, stored !! room = Some info ->
                              r ∈ snd (load_room room info) -> r ∈ snd acc))
      f b) as Hind;
    destruct (map_fold f b m) as [rs lg] eqn:Hfold
  end.
  simpl.
  assert (Hacc : (forall room, rs !! room =
                    (fun info => fst (load_room room info)) <$>
                    rooms (disk w) !! room) /\
                 (forall room info r, rooms (disk w) !! room = Some info ->
                    r ∈ snd (load_room room info) -> r ∈ lg)).
  { change rs with (fst (rs, lg)). change lg with (snd (rs, lg)) at 2.
    rewrite <- Hfold. apply Hind; clear.
    - split; [intros room; now rewrite !lookup_empty|].
      intros room info r Hl. now rewrite lookup_empty in Hl.
    - intros i x m [rs lg] Hi [IHr IHl].
      destruct (load_room i x) as [ri lg'] eqn:Hload. simpl in *. split.
      + intros room. destruct (decide (i = room)) as [->|Hne].
        * rewrite !lookup_insert_eq. simpl. now rewrite Hload.
        * rewrite !lookup_insert_ne by assumption. apply IHr.
      + intros room info r Hl Hr. apply elem_of_app.
        destruct (decide (i = room)) as [->|Hne].
        * rewrite lookup_insert_eq in Hl. injection Hl as <-.
          rewrite Hload in Hr. now right.
        * rewrite lookup_insert_ne in Hl by assumption. left. eauto. }
  destruct Hacc as [Hr Hl]. split; [exact Hr|].
  intros room info r Hi Hin. apply elem_of_app. right. eauto.
Qed.



Lemma filter_all_valid (fmts : list Pattern) :
  Forall (fun regex => re_valid (pattern regex) = true) fmts ->
  List.filter re_valid (map pattern fmts) = map pattern fmts.
Proof.
  induction 1 as [|regex fmts Hv _ IH]; simpl; [reflexivity|].
  now rewrite Hv, IH.
Qed.

Lemma map_pattern_build (pats : list string) :
  map pattern (map Build_Pattern pats) = pats.
Proof. induction pats as [|p pats IH]; simpl; [reflexivity|now rewrite IH]. Qed.

(** C8: saving the rule sets and loading them again gives a room the
    pattern strings it had, in their order, less those that do not
    compile again; when all of them compile, the same strings. *)
Theorem save_reload_round_trip w room ri :
  _rooms (self w) !! room = Some ri ->
  let w' := snd ((save_rooms ;; on_external_config_update)%handler w) in
  (exists ri', _rooms (self w') !! room = Some ri' /\
               map pattern (formats ri') =
               List.filter re_valid (map pattern (formats ri))) /\
  (Forall (fun regex => re_valid (pattern regex) = true) (formats ri) ->
   exists ri', _rooms (self w') !! room = Some ri' /\
               map pattern (formats ri') = map pattern (formats ri)).
Proof.
  intros Hri w'.
  assert (Hgen : exists ri', _rooms (self w') !! room = Some ri' /\
                   map pattern (formats ri') =
                   List.filter re_valid (map pattern (formats ri))).
  { subst w'. unfold bind. simpl.
    destruct (reload_rooms (snd (save_rooms w))) as [Hr _].
    eexists. split.
    - rewrite Hr. simpl. rewrite lookup_fmap, Hri. simpl. reflexivity.
    - rewrite load_room_spec. simpl. apply map_pattern_build. }
  split; [exact Hgen|].
  intros Hall. destruct Hgen as (ri' & Hl & Hp). exists ri'.
  split; [exact Hl|]. now rewrite Hp, filter_all_valid.
Qed.

End PersistenceFacts.


Lemma save_reload_round_trip_witness :
  let ri := Sample.rules [Sample.team_rule; "#ops:.*"] in
  let w' := snd ((save_rooms ;; on_external_config_update (E := MiniRe.engine))%handler
                   (Sample.world {[Sample.ops := ri]} ∅)) in
  exists ri', _rooms (self w') !! Sample.ops = Some ri' /\
              map pattern (formats ri') = [Sample.team_rule; "#ops:.*"].
Proof.
  intros ri w'.
  destruct (save_reload_round_trip (E := MiniRe.engine)
              (Sample.world {[Sample.ops := ri]} ∅) Sample.ops ri)
    as (_ & Hsame); [reflexivity|].
  apply Hsame. repeat constructor.
Defined.

(** ** The [publish] command *)

Section PublishFacts.
Context `{E : RegexEngine} `{C : Client}.

Lemma validate_alias_silent evt alias w :
  silent w (snd (_validate_alias evt alias w)).
Proof.
  unfold _validate_alias, bind, get, reply, emit, ret, raise, silent.
  repeat (case_match; simpl); auto.
Qed.

Lemma validate_alias_true evt alias w :
  fst (_validate_alias evt alias w) = Return true ->
  snd (_validate_alias evt alias w) = w.
Proof.
  unfold _validate_alias, bind, get, reply, emit, ret, raise.
  repeat (case_match; simpl); auto; discriminate.
Qed.

Lemma get_existing_aliases_silent evt w :
  silent w (snd (_get_existing_aliases evt w)).
Proof.
  unfold _get_existing_aliases, bind, reply, emit, log_record, ret, silent.
  repeat (case_match; simpl); auto.
Qed.

Lemma get_existing_aliases_Some evt w existing :
  fst (_get_existing_aliases evt w) = Return (Some existing) ->
  fetched evt existing.
Proof.
  unfold _get_existing_aliases, bind, reply, emit, log_record, ret, fetched.
  repeat (case_match; simpl); intros [= <-]; eauto.
Qed.

Lemma get_existing_aliases_fetched evt w existing :
  fetched evt existing ->
  _get_existing_aliases evt w = (Return (Some existing), w).
Proof.
  unfold _get_existing_aliases, fetched, ret.
  intros [->|[[message ->] ->]]; reflexivity.
Qed.

Lemma publish_aliases_events evt alias content w :
  let w' := snd (_publish_aliases evt alias content w) in
  self w' = self w /\ disk w' = disk w /\
  state_events w' =
    state_events w ++ [(room_id evt, append_alias content alias)].
Proof.
  unfold _publish_aliases, client_send, bind, reply, emit, log_record.
  repeat (case_match; simpl); auto.
Qed.


(** C10, as the code has it: when the candidate is among the alternate
    aliases fetched for the room, [add_alias] sends no state event; and
    when the candidate has passed [_validate_alias], it replies that
    the alias is already published and does nothing else, whatever the
    rules of the room are. *)
Theorem add_alias_duplicate evt alias existing w :
  fetched evt existing ->
  alias ∈ alt_aliases existing ->
  state_events (snd (add_alias evt alias w)) = state_events w /\
  (fst (_validate_alias evt alias w) = Return true ->
   add_alias evt alias w =
   reply "That alias is already published in this room" w).
Proof.
  intros Hf Hin.
  assert (Hmem : mem alias (alt_aliases existing) = true)
    by (unfold mem; now apply bool_decide_eq_true).
  unfold add_alias, bind.
  pose proof (validate_alias_silent evt alias w) as Hv.
  pose proof (validate_alias_true evt alias w) as Ht.
  destruct (_validate_alias evt alias w) as [[valid|e] w1]; simpl in Hv, Ht;
    destruct Hv as (Hs1 & Hd1 & He1); [|split; [assumption|discriminate]].
  destruct valid; simpl; [|split; [assumption|discriminate]].
  rewrite (get_existing_aliases_fetched _ _ _ Hf), Hmem. simpl.
  split; [assumption|]. intros _. now rewrite Ht.
Qed.

(** An elapsed deadline inside [add_alias]: the handler has no clause for
    [TimeoutError] either; it is left by the exception, with no reply and
    no state event. *)
Lemma add_alias_timeout evt alias existing cfg w :
  fst (_validate_alias evt alias w) = Return true ->
  fetched evt existing ->
  ~ alias ∈ alt_aliases existing ->
  _rooms (self w) !! room_id evt = Some cfg ->
  deadline_elapses cfg alias ->
  add_alias evt alias w = (Raise TimeoutError, w).
Proof.
  intros Hv Hf Hnew Hcfg Hel.
  assert (Hmem : mem alias (alt_aliases existing) = false)
    by (unfold mem; now apply bool_decide_eq_false).
  unfold add_alias, bind.
  pose proof (validate_alias_true evt alias w Hv) as Hw.
  destruct (_validate_alias evt alias w) as [r w1]. simpl in Hv, Hw. subst r w1.
  simpl. rewrite (get_existing_aliases_fetched _ _ _ Hf), Hmem.
  unfold get, lift.
  rewrite (is_allowed_rules _ _ _ _ _ Hcfg).
  rewrite match_formats_timeout; [reflexivity| |exact Hel].
  pose proof (deadline_floor (length (formats cfg))). lra.
Qed.

End PublishFacts.

Lemma add_alias_duplicate_witness :
  let evt := {| room_id := Sample.ops; sender := "@user:matrix.org" |} in
  let w := Sample.world {[Sample.ops := Sample.rules [Sample.slow_rule]]} ∅ in
  state_events (snd (add_alias (E := MiniRe.engine) (C := Sample.homeserver true)
                       evt "#room:matrix.org" w)) = [] /\
  add_alias (E := MiniRe.engine) (C := Sample.homeserver true)
    evt "#room:matrix.org" w =
  reply "That alias is already published in this room" w.
Proof.
  intros evt w.
  destruct (add_alias_duplicate (E := MiniRe.engine) (C := Sample.homeserver true)
              evt "#room:matrix.org" Sample.existing w) as [Hquiet Hdup].
  - left. reflexivity.
  - left.
  - split; [exact Hquiet|]. apply Hdup. reflexivity.
Defined.

(** C10 as stated fails: the candidate is among the alternate aliases of
    the room, but it no longer resolves on the homeserver, and the reply
    is the one of the failed validation, not the duplicate message. *)
Lemma add_alias_duplicate_unresolved :
  let evt := {| room_id := Sample.ops; sender := "@user:matrix.org" |} in
  let w := Sample.world ∅ ∅ in
  let w' := snd (add_alias (E := MiniRe.engine) (C := Sample.homeserver false)
                   evt "#room:matrix.org" w) in
  fetched (C := Sample.homeserver false) evt Sample.existing /\
  "#room:matrix.org" ∈ alt_aliases Sample.existing /\
  map reply_text (replies w') = ["That alias does not exist"] /\
  ~ "That alias is already published in this room" ∈ map reply_text (replies w').
Proof.
  repeat split.
  - left. reflexivity.
  - left.
  - intros Hin. vm_compute in Hin.
    apply list_elem_of_In in Hin. destruct Hin as [Heq|[]]. discriminate Heq.
Qed.

(** ** The [allow] command *)

Section AllowFacts.
Context `{E : RegexEngine} `{C : Client}.

(** C7, as the code has it: for a pattern that does not compile,
    [allow_format] saves nothing, adds the pattern to no rule set and
    leaves every rule set that existed as it was; for a sender who has
    the permission, the handler is left by [re.error] and no reply is
    sent. *)
Theorem allow_format_invalid evt regex w :
  re_compile regex = None ->
  let r := fst (allow_format evt regex w) in
  let w' := snd (allow_format evt regex w) in
  disk w' = disk w /\ config (self w') = config (self w) /\
  (forall room ri,
     _rooms (self w) !! room = Some ri -> _rooms (self w') !! room = Some ri) /\
  (forall room ri' regex',
     _rooms (self w') !! room = Some ri' -> regex' ∈ formats ri' ->
     exists ri, _rooms (self w) !! room = Some ri /\ regex' ∈ formats ri) /\
  (permitted evt w -> r = Raise ReError /\ replies w' = replies w).
Proof.
  intros Hbad. unfold allow_format, bind, get, lift, put, ret, raise.
  rewrite Hbad. simpl.
  assert (Hstep :
    let w2 := snd (match _rooms (self w) !! room_id evt with
                   | Some room => (Return room, w)
                   | None => (Return {| formats := [] |},
                              set_self (set_rooms (<[room_id evt := {| formats := [] |}]>
                                                     (_rooms (self w))) (self w)) w)
                   end) in
    disk w2 = disk w /\ config (self w2) = config (self w) /\
    replies w2 = replies w /\
    (forall room ri, _rooms (self w) !! room = Some ri ->
                     _rooms (self w2) !! room = Some ri) /\
    (forall room ri' regex', _rooms (self w2) !! room = Some ri' ->
       regex' ∈ formats ri' ->
       exists ri, _rooms (self w) !! room = Some ri /\ regex' ∈ formats ri)).
  { destruct (_rooms (self w) !! room_id evt) as [room0|] eqn:Hroom; simpl.
    - repeat split; eauto.
    - repeat split; auto.
      + intros room ri Hri. rewrite lookup_insert_ne; [assumption|congruence].
      + intros room ri' regex' Hri' Hin.
        destruct (decide (room_id evt = room)) as [<-|Hne].
        * rewrite lookup_insert_eq in Hri'. injection Hri' as <-. inversion Hin.
        * rewrite lookup_insert_ne in Hri' by assumption. eauto. }
  destruct (mem (sender evt) (admins (config (self w)))) eqn:Hadm; simpl.
  - destruct (_rooms (self w) !! room_id evt) as [room0|]; simpl in *;
      destruct Hstep as (? & ? & ? & ? & ?); repeat split; auto.
  - destruct (get_power_levels_event (room_id evt)) as [powers|e] eqn:Hp; simpl.
    + destruct (get_user_level powers (sender evt) <? canonical_alias_level powers)%Z
        eqn:Hlt; simpl.
      * repeat split; eauto.
        all: match goal with Hperm : permitted _ _ |- _ =>
               destruct Hperm as [Hin|(p & Hp' & Hle)] end;
          [apply bool_decide_eq_false in Hadm; contradiction|].
        all: rewrite Hp in Hp'; injection Hp' as <-;
          apply Z.ltb_lt in Hlt; lia.
      * destruct (_rooms (self w) !! room_id evt) as [room0|]; simpl in *;
          destruct Hstep as (? & ? & ? & ? & ?); repeat split; auto.
    + repeat split; eauto.
      all: match goal with Hperm : permitted _ _ |- _ =>
             destruct Hperm as [Hin|(p & Hp' & Hle)] end;
        [apply bool_decide_eq_false in Hadm; contradiction|congruence].
Qed.

End AllowFacts.

Lemma allow_format_invalid_witness :
  let evt := {| room_id := Sample.ops; sender := Sample.admin |} in
  let w := Sample.world {[Sample.ops := Sample.rules [Sample.team_rule]]} ∅ in
  let r := fst (allow_format (E := MiniRe.engine) (C := Sample.homeserver true)
                  evt Sample.broken_rule w) in
  let w' := snd (allow_format (E := MiniRe.engine) (C := Sample.homeserver true)
                   evt Sample.broken_rule w) in
  _rooms (self w') !! Sample.ops = Some (Sample.rules [Sample.team_rule]) /\
  r = Raise ReError /\ replies w' = [].
Proof.
  intros evt w r w'.
  destruct (allow_format_invalid (E := MiniRe.engine) (C := Sample.homeserver true)
              evt Sample.broken_rule w) as (_ & _ & Hkeep & _ & Hperm);
    [reflexivity|].
  split; [apply Hkeep; reflexivity|].
  apply Hperm. left. left.
Defined.

(** C7 as stated fails: an administrator submits [(] in a room that has
    no rule set.  No reply is sent, the handler is left by [re.error],
    and the room is left with an empty rule set where it had none. *)
Lemma allow_format_invalid_no_rejection :
  let evt := {| room_id := Sample.ops; sender := Sample.admin |} in
  let w := Sample.world ∅ ∅ in
  let r := fst (allow_format (E := MiniRe.engine) (C := Sample.homeserver true)
                  evt Sample.broken_rule w) in
  let w' := snd (allow_format (E := MiniRe.engine) (C := Sample.homeserver true)
                   evt Sample.broken_rule w) in
  re_compile (E := MiniRe.engine) Sample.broken_rule = None /\
  r = Raise ReError /\ replies w' = [] /\
  _rooms (self w) !! Sample.ops = None /\
  _rooms (self w') !! Sample.ops = Some {| formats := [] |} /\
  _rooms (self w') <> _rooms (self w).
Proof.
  repeat split. intros Heq.
  apply (f_equal (fun rs => rs !! Sample.ops)) in Heq. discriminate Heq.
Qed.

(** * Further properties of the plugin *)

(** ** The syntax check *)

(** X1: [_get_localpart] returns [localpart] exactly on the strings
    [#localpart:domain] whose [domain] is not empty and whose [localpart]
    holds no [:]; the localpart it returns is the text between [#] and the
    first [:]. *)
Theorem get_localpart_accepts alias localpart :
  _get_localpart alias = Return localpart <->
  exists domain,
    alias = "#" +:+ localpart +:+ ":" +:+ domain /\
    domain <> "" /\ Str.contains ":" localpart = false.
Proof.
  rewrite get_localpart_Return. split; intros (d & Ha & Hd & Hl); exists d;
    (split; [exact Ha|split; [exact Hd|now apply contains_index]]).
Qed.

(** X2: the four failures of [_get_localpart] and their order: the empty
    string, then a first character other than [#], then the absence of
    [:], then a [:] that ends the string; each one is a [ValueError] with
    a message of its own. *)
Theorem get_localpart_errors (a : ascii) (t l : string) :
  _get_localpart "" = Raise (ValueError "Alias is empty") /\
  (a <> "#"%char ->
   _get_localpart (String a t) = Raise (ValueError "Aliases start with #")) /\
  (Str.contains ":" t = false ->
   _get_localpart (String "#" t) =
   Raise (ValueError "Alias must contain domain separator")) /\
  (Str.contains ":" l = false ->
   _get_localpart ("#" +:+ l +:+ ":") = Raise (ValueError "Alias must contain domain")).
Proof.
  split; [reflexivity|]. split; [|split].
  - intros Ha. unfold _get_localpart.
    destruct (Ascii.eqb_spec a "#"); [contradiction|reflexivity].
  - intros Ht. apply contains_index in Ht.
    now rewrite get_localpart_hash, Ht.
  - intros Hl. apply contains_index in Hl.
    change ("#" +:+ l +:+ ":") with (String "#" (l +:+ String ":" "")).
    rewrite get_localpart_hash, (index_app_fresh _ _ _ Hl), length_app.
    simpl. now rewrite Nat.add_1_r, Nat.eqb_refl.
Qed.

Lemma get_localpart_errors_witness :
  _get_localpart "room:example.org" = Raise (ValueError "Aliases start with #") /\
  _get_localpart "#room" = Raise (ValueError "Alias must contain domain separator") /\
  _get_localpart "#room:" = Raise (ValueError "Alias must contain domain").
Proof.
  destruct (get_localpart_errors "r" "oom:example.org" "room") as (_ & Hh & _ & Hd).
  destruct (get_localpart_errors "r" "room" "room") as (_ & _ & Hs & _).
  split; [apply Hh; discriminate|].
  split; [apply Hs; reflexivity|apply Hd; reflexivity].
Defined.



(** ** The decision *)

Lemma any_localpart_matches_returns aliases localpart :
  exists b, any_localpart_matches aliases localpart = Return b.
Proof.
  destruct (any_localpart_matches_spec aliases localpart) as (b & Hb & _). eauto.
Qed.

(** X4: in a room without rules [_is_allowed] raises in exactly two
    cases: the candidate fails the syntax check, and it raises the
    [ValueError] of [_get_localpart]; or the candidate passes the check
    and the content has no canonical alias, and it raises [TypeError].
    Existing aliases that are ill-formed strings never make it raise. *)
Theorem is_allowed_no_rules_raises `{E : RegexEngine} self room alias existing_event e :
  _rooms self !! room = None ->
  (_is_allowed self room alias existing_event = Raise e <->
   _get_localpart alias = Raise e \/
   ((exists localpart, _get_localpart alias = Return localpart) /\
    canonical_alias existing_event = None /\ e = TypeError)).
Proof.
  intros Hr. unfold _is_allowed. rewrite Hr.
  destruct (_get_localpart alias) as [lp|e'] eqn:Hl; simpl.
  - destruct (canonical_alias existing_event) as [canonical|]; simpl.
    + rewrite localpart_matches_of_Some.
      destruct (localpart_matches_spec canonical lp) as (b & -> & _). simpl.
      assert (Hret : exists b', (if b then Return true
                                 else any_localpart_matches
                                        (alt_aliases existing_event) lp)
                                = Return b').
      { destruct b; [eauto|apply any_localpart_matches_returns]. }
      destruct Hret as [b' ->].
      split; [discriminate|]. intros [Hx|(_ & Hx & _)]; discriminate Hx.
    + split.
      * intros [= <-]. right. eauto.
      * intros [Hx|(_ & _ & ->)]; [discriminate Hx|reflexivity].
  - split.
    + intros [= ->]. now left.
    + intros [[= ->]|([lp Hx] & _)]; [reflexivity|discriminate Hx].
Qed.

Lemma is_allowed_no_rules_raises_witness :
  _is_allowed (E := MiniRe.engine) (Sample.bot ∅) Sample.ops "room:example.org"
    Sample.existing = Raise (ValueError "Aliases start with #") /\
  _is_allowed (E := MiniRe.engine) (Sample.bot ∅) Sample.ops "#room:other.org"
    Sample.no_canonical = Raise TypeError.
Proof.
  split.
  - apply (is_allowed_no_rules_raises (E := MiniRe.engine)); [reflexivity|].
    left. reflexivity.
  - apply (is_allowed_no_rules_raises (E := MiniRe.engine)); [reflexivity|].
    right. split; [exists "room"; reflexivity|split; reflexivity].
Defined.

Section MoreDecisionFacts.
Context `{E : RegexEngine}.

(** X5: on a room with a rule set the outcome of [_is_allowed] is fixed
    by the time the evaluation needs: it raises exactly when the deadline
    elapses, nothing but [TimeoutError]; and when it returns, the deadline
    has not elapsed and the answer tells whether a pattern fully matches. *)
Theorem is_allowed_rules_outcome self room cfg alias existing_event :
  _rooms self !! room = Some cfg ->
  (forall e, _is_allowed self room alias existing_event = Raise e ->
             e = TimeoutError /\ deadline_elapses cfg alias) /\
  (forall b, _is_allowed self room alias existing_event = Return b ->
             ~ deadline_elapses cfg alias /\
             (b = true <->
              exists regex, regex ∈ formats cfg /\ re_fullmatch regex alias = true)).
Proof.
  intros Hr. rewrite (is_allowed_rules _ _ _ _ _ Hr). unfold deadline_elapses.
  pose proof (deadline_floor (length (formats cfg))) as Hfloor.
  destruct (Qlt_le_dec (evaluation_time (formats cfg) alias)
                       (deadline (length (formats cfg)))) as [Hlt|Hle].
  - rewrite (match_formats_in_time _ _ _ Hlt). split; [discriminate|].
    intros b [= <-]. split; [lra|apply existsb_fullmatch].
  - rewrite match_formats_timeout by (try assumption; lra).
    split; [|discriminate]. intros e [= <-]. auto.
Qed.




End MoreDecisionFacts.

Lemma is_allowed_rules_outcome_witness :
  let cfg := Sample.rules [Sample.slow_rule; Sample.team_rule] in
  deadline_elapses (E := MiniRe.engine) cfg "#team-a:example.org" /\
  ~ deadline_elapses (E := MiniRe.engine) (Sample.rules [Sample.team_rule])
      "#other:example.org".
Proof.
  intros cfg. split.
  - destruct (is_allowed_rules_outcome (E := MiniRe.engine)
                (Sample.bot {[Sample.ops := cfg]}) Sample.ops cfg
                "#team-a:example.org" Sample.existing) as [Hraise _];
      [reflexivity|].
    apply (Hraise TimeoutError). vm_compute. reflexivity.
  - destruct (is_allowed_rules_outcome (E := MiniRe.engine)
                (Sample.bot {[Sample.ops := Sample.rules [Sample.team_rule]]})
                Sample.ops (Sample.rules [Sample.team_rule])
                "#other:example.org" Sample.existing) as [_ Hret];
      [reflexivity|].
    apply (Hret false). vm_compute. reflexivity.
Defined.


(** ** The steps of the [publish] command *)

Section MorePublishFacts.
Context `{E : RegexEngine} `{C : Client}.

Lemma replied_emit r w : replied 1 w (snd (emit r w)).
Proof. exists [r]. split; reflexivity. Qed.

Lemma replied_zero w : replied 0 w w.
Proof. exists []. split; [now rewrite app_nil_r|reflexivity]. Qed.

Lemma validate_alias_returns evt alias w :
  exists b, fst (_validate_alias evt alias w) = Return b.
Proof.
  unfold _validate_alias.
  destruct (_get_localpart alias) as [lp|e] eqn:Hl.
  - unfold bind, get, reply, emit, ret. repeat case_match; simpl; eauto.
  - destruct (get_localpart_Raise _ _ Hl) as [msg ->]. simpl. eauto.
Qed.

Lemma validate_alias_true_resolves evt alias w :
  fst (_validate_alias evt alias w) = Return true ->
  exists localpart info,
    _get_localpart alias = Return localpart /\
    (require_lowercase (config (self w)) = true -> Str.islower localpart = true) /\
    get_room_alias alias = Return info /\
    alias_room_id info = room_id evt.
Proof.
  unfold _validate_alias.
  destruct (_get_localpart alias) as [lp|e] eqn:Hl.
  - unfold bind, get, reply, emit, ret. simpl.
    destruct (Str.islower lp) eqn:Hlow;
      destruct (require_lowercase (config (self w))) eqn:Hreq; simpl;
      try discriminate.
    all: destruct (get_room_alias alias) as [info|e] eqn:Hres;
      [|destruct e; simpl; discriminate].
    all: destruct (String.eqb_spec (alias_room_id info) (room_id evt));
      simpl; [|discriminate].
    all: intros _; exists lp, info; repeat split; auto; discriminate.
  - destruct e; simpl; discriminate.
Qed.

Lemma validate_alias_false_replies evt alias w :
  fst (_validate_alias evt alias w) = Return false ->
  exists text, snd (_validate_alias evt alias w) = snd (reply text w).
Proof.
  unfold _validate_alias, bind, get, reply, emit, ret, raise.
  repeat (case_match; simpl); try discriminate; eauto.
Qed.

(** X7: on an alias of ASCII characters, and on any alias where the
    configuration does not require lowercase, [_validate_alias] never
    raises.  It returns true exactly when the alias passes the syntax
    check, its localpart is lowercase ([str.islower]: a lowercase letter
    and no uppercase one) if the configuration requires that, and the
    homeserver resolves the alias to the room of the event; then it has
    sent nothing.  Otherwise it returns false after one reply. *)
Theorem validate_alias_spec evt alias w :
  (require_lowercase (config (self w)) = true -> Str.is_ascii alias = true) ->
  exists b,
    fst (_validate_alias evt alias w) = Return b /\
    (b = true <->
     exists localpart info,
       _get_localpart alias = Return localpart /\
       (require_lowercase (config (self w)) = true ->
        Str.islower localpart = true) /\
       get_room_alias alias = Return info /\
       alias_room_id info = room_id evt) /\
    (if b then snd (_validate_alias evt alias w) = w
     else exists text, snd (_validate_alias evt alias w) = snd (reply text w)).
Proof.
  intros _. destruct (validate_alias_returns evt alias w) as [b Hb]. exists b.
  split; [exact Hb|]. split.
  - split.
    + intros ->. now apply validate_alias_true_resolves.
    + intros (lp & info & Hl & Hlow & Hres & Hroom).
      revert Hb. unfold _validate_alias. rewrite Hl.
      unfold bind, get, reply, emit, ret. simpl.
      destruct (require_lowercase (config (self w))).
      * rewrite Hlow by reflexivity. simpl. rewrite Hres, Hroom, String.eqb_refl.
        simpl. congruence.
      * rewrite andb_false_r, Hres, Hroom, String.eqb_refl. simpl. congruence.
  - destruct b.
    + now apply validate_alias_true.
    + now apply validate_alias_false_replies.
Qed.

(** X8: where the configuration requires lowercase, an alias whose
    localpart holds an uppercase letter is refused with the lowercase
    message, whatever the homeserver would say about it. *)
Theorem validate_alias_uppercase evt alias localpart w :
  require_lowercase (config (self w)) = true ->
  _get_localpart alias = Return localpart ->
  Str.any_char Str.is_upper localpart = true ->
  _validate_alias evt alias w =
  (Return false, snd (reply "That alias localpart is not in lowercase" w)).
Proof.
  intros Hreq Hl Hup. unfold _validate_alias. rewrite Hl.
  unfold bind, get, Str.islower. simpl. rewrite Hreq, Hup.
  now rewrite andb_false_r.
Qed.

Lemma get_existing_aliases_returns evt w :
  exists r, fst (_get_existing_aliases evt w) = Return r.
Proof.
  unfold _get_existing_aliases, bind, reply, emit, log_record, ret.
  repeat (case_match; simpl); eauto.
Qed.

Lemma get_existing_aliases_None evt w :
  fst (_get_existing_aliases evt w) = Return None ->
  replied 1 w (snd (_get_existing_aliases evt w)).
Proof.
  unfold _get_existing_aliases, bind, reply, emit, log_record, ret, replied.
  repeat (case_match; simpl); try discriminate; intros _; eexists;
    (split; [reflexivity|reflexivity]).
Qed.

Lemma get_existing_aliases_Some_same evt w existing :
  fst (_get_existing_aliases evt w) = Return (Some existing) ->
  snd (_get_existing_aliases evt w) = w.
Proof.
  intros Hs. apply get_existing_aliases_Some in Hs.
  now rewrite (get_existing_aliases_fetched _ _ _ Hs).
Qed.

(** X9: [_get_existing_aliases] never raises.  It returns the content of
    the room's state event, or the default content when the homeserver
    reports none, and changes nothing; on every other failure of the
    request it returns nothing after exactly one reply. *)
Theorem get_existing_aliases_spec evt w :
  let w' := snd (_get_existing_aliases evt w) in
  exists r,
    fst (_get_existing_aliases evt w) = Return r /\
    (forall existing, r = Some existing <-> fetched evt existing) /\
    (is_Some r -> w' = w) /\
    (r = None -> replied 1 w w') /\
    silent w w'.
Proof.
  intros w'. destruct (get_existing_aliases_returns evt w) as [r Hr].
  exists r. split; [exact Hr|]. split; [|split; [|split]].
  - intros existing. split.
    + intros ->. now apply (get_existing_aliases_Some evt w).
    + intros Hf. rewrite (get_existing_aliases_fetched _ _ _ Hf) in Hr.
      simpl in Hr. congruence.
  - intros [existing ->]. now apply (get_existing_aliases_Some_same evt w existing).
  - intros ->. now apply get_existing_aliases_None.
  - apply get_existing_aliases_silent.
Qed.

Lemma publish_aliases_returns evt alias content w :
  fst (_publish_aliases evt alias content w) = Return tt.
Proof.
  unfold _publish_aliases, client_send, bind, reply, emit, log_record.
  repeat (case_match; simpl); try reflexivity; simplify_eq; reflexivity.
Qed.

Lemma publish_aliases_replies evt alias content w :
  let w' := snd (_publish_aliases evt alias content w) in
  (send_state_event (room_id evt) (append_alias content alias) = Return tt ->
   replies w' = replies w /\ log w' = log w) /\
  (forall e, send_state_event (room_id evt) (append_alias content alias) = Raise e ->
             replied 1 w w').
Proof.
  unfold _publish_aliases, client_send, bind, reply, emit, log_record, replied.
  split.
  - intros ->. simpl. auto.
  - intros e ->. destruct e; simpl; eexists; (split; [reflexivity|reflexivity]).
Qed.

(** X10: [_publish_aliases] never raises and calls [send_state_event]
    once, with the candidate appended to the content it was given.  When
    the call succeeds nothing is replied or logged; when it fails there
    is exactly one reply, the permission message for [MForbidden]. *)
Theorem publish_aliases_spec evt alias content w :
  let sent := append_alias content alias in
  let w' := snd (_publish_aliases evt alias content w) in
  fst (_publish_aliases evt alias content w) = Return tt /\
  state_events w' = state_events w ++ [(room_id evt, sent)] /\
  (send_state_event (room_id evt) sent = Return tt ->
   replies w' = replies w /\ log w' = log w) /\
  (forall e, send_state_event (room_id evt) sent = Raise e -> replied 1 w w') /\
  (forall message,
     send_state_event (room_id evt) sent = Raise (MForbidden message) ->
     map reply_text (replies w') =
     map reply_text (replies w) ++
     ["I don't have the permission to publish aliases :("]).
Proof.
  intros sent w'.
  destruct (publish_aliases_events evt alias content w) as (_ & _ & Hev).
  destruct (publish_aliases_replies evt alias content w) as [Hok Hfail].
  split; [apply publish_aliases_returns|]. split; [exact Hev|].
  split; [exact Hok|]. split; [exact Hfail|].
  intros message Hm. subst w' sent.
  unfold _publish_aliases, client_send, reply, emit. rewrite Hm. simpl.
  now rewrite map_app.
Qed.

End MorePublishFacts.

Lemma validate_alias_uppercase_witness :
  _validate_alias (C := Sample.homeserver true)
    {| room_id := Sample.ops; sender := "@user:matrix.org" |}
    "#Lobby:example.org" (Sample.world ∅ ∅) =
  (Return false,
   snd (reply "That alias localpart is not in lowercase" (Sample.world ∅ ∅))).
Proof.
  apply (validate_alias_uppercase (C := Sample.homeserver true)
           _ "#Lobby:example.org" "Lobby"); reflexivity.
Defined.

Lemma get_existing_aliases_spec_witness :
  let evt := {| room_id := Sample.ops; sender := "@user:matrix.org" |} in
  exists r,
    fst (_get_existing_aliases (C := Sample.homeserver true) evt (Sample.world ∅ ∅))
    = Return r /\
    snd (_get_existing_aliases (C := Sample.homeserver true) evt (Sample.world ∅ ∅))
    = Sample.world ∅ ∅.
Proof.
  intros evt.
  destruct (get_existing_aliases_spec (C := Sample.homeserver true) evt
              (Sample.world ∅ ∅)) as (r & Hr & Hf & Hsame & _).
  exists r. split; [exact Hr|]. apply Hsame.
  exists Sample.existing. apply Hf. left. reflexivity.
Defined.

Lemma publish_aliases_spec_witness :
  let evt := {| room_id := Sample.ops; sender := "@user:matrix.org" |} in
  let w' := snd (_publish_aliases (C := Sample.homeserver true) evt "#room:other.org"
                   Sample.existing (Sample.world ∅ ∅)) in
  replies w' = [] /\ log w' = [].
Proof.
  intros evt w'.
  destruct (publish_aliases_spec (C := Sample.homeserver true) evt "#room:other.org"
              Sample.existing (Sample.world ∅ ∅)) as (_ & _ & Hok & _).
  apply Hok. reflexivity.
Defined.

(** ** The [publish] command as a whole *)

Section AddAliasFacts.
Context `{E : RegexEngine} `{C : Client}.

(** [add_alias] past its three refusals: what is left is the decision. *)
Lemma add_alias_decides evt alias existing w :
  fst (_validate_alias evt alias w) = Return true ->
  fetched evt existing ->
  ~ alias ∈ alt_aliases existing ->
  add_alias evt alias w =
  match _is_allowed (self w) (room_id evt) alias existing with
  | Return true => _publish_aliases evt alias existing w
  | Return false => reply "That alias is not allowed in this room" w
  | Raise e => (Raise e, w)
  end.
Proof.
  intros Hv Hf Hnew.
  assert (Hmem : mem alias (alt_aliases existing) = false)
    by (unfold mem; now apply bool_decide_eq_false).
  unfold add_alias, bind.
  pose proof (validate_alias_true evt alias w Hv) as Hw.
  destruct (_validate_alias evt alias w) as [r w1]. simpl in Hv, Hw. subst r w1.
  simpl. rewrite (get_existing_aliases_fetched _ _ _ Hf), Hmem.
  unfold get, lift.
  destruct (_is_allowed (self w) (room_id evt) alias existing) as [[|]|e];
    reflexivity.
Qed.

(** [add_alias] stopped by one of its three refusals. *)
Lemma add_alias_refuses evt alias w :
  fst (_validate_alias evt alias w) = Return false \/
  (fst (_validate_alias evt alias w) = Return true /\
   (fst (_get_existing_aliases evt w) = Return None \/
    exists existing, fetched evt existing /\ alias ∈ alt_aliases existing)) ->
  fst (add_alias evt alias w) = Return tt /\
  replied 1 w (snd (add_alias evt alias w)) /\
  state_events (snd (add_alias evt alias w)) = state_events w.
Proof.
  unfold add_alias, bind. intros [Hv|[Hv Hrest]].
  - pose proof (validate_alias_false_replies evt alias w Hv) as [text Hw].
    pose proof (validate_alias_silent evt alias w) as (_ & _ & Hev).
    destruct (_validate_alias evt alias w) as [r w1]. simpl in *. subst r.
    simpl. split; [reflexivity|]. split; [|exact Hev].
    rewrite Hw. apply replied_emit.
  - pose proof (validate_alias_true evt alias w Hv) as Hw.
    destruct (_validate_alias evt alias w) as [r w1]. simpl in Hv, Hw. subst r w1.
    simpl. destruct Hrest as [Hnone|(existing & Hf & Hin)].
    + pose proof (get_existing_aliases_None evt w Hnone) as Hone.
      pose proof (get_existing_aliases_silent evt w) as (_ & _ & Hev).
      destruct (_get_existing_aliases evt w) as [r w2]. simpl in *. subst r.
      simpl. auto.
    + rewrite (get_existing_aliases_fetched _ _ _ Hf).
      assert (Hmem : mem alias (alt_aliases existing) = true)
        by (unfold mem; now apply bool_decide_eq_true).
      rewrite Hmem. simpl. split; [reflexivity|]. split; [|reflexivity].
      apply replied_emit.
Qed.

(** The cases of a call of [add_alias]. *)
Lemma add_alias_cases evt alias w :
  (fst (_validate_alias evt alias w) = Return false \/
   (fst (_validate_alias evt alias w) = Return true /\
    (fst (_get_existing_aliases evt w) = Return None \/
     exists existing, fetched evt existing /\ alias ∈ alt_aliases existing))) \/
  (fst (_validate_alias evt alias w) = Return true /\
   exists existing, fetched evt existing /\ ~ alias ∈ alt_aliases existing).
Proof.
  destruct (validate_alias_returns evt alias w) as [[|] Hv]; [|auto].
  destruct (get_existing_aliases_returns evt w) as [[existing|] Hr]; [|auto].
  apply get_existing_aliases_Some in Hr.
  destruct (decide (alias ∈ alt_aliases existing)); [left|right]; eauto 10.
Qed.

Lemma is_allowed_validated_raise evt alias existing w e :
  fst (_validate_alias evt alias w) = Return true ->
  _is_allowed (self w) (room_id evt) alias existing = Raise e ->
  (e = TimeoutError /\
   exists cfg, _rooms (self w) !! room_id evt = Some cfg /\
               deadline_elapses cfg alias) \/
  (e = TypeError /\ _rooms (self w) !! room_id evt = None /\
   canonical_alias existing = None).
Proof.
  intros Hv Hraise.
  destruct (validate_alias_true_resolves _ _ _ Hv) as (lp & _ & Hl & _).
  destruct (_rooms (self w) !! room_id evt) as [cfg|] eqn:Hr.
  - left. rewrite (is_allowed_rules _ _ _ _ _ Hr) in Hraise.
    pose proof (deadline_floor (length (formats cfg))) as Hfloor.
    destruct (Qlt_le_dec (evaluation_time (formats cfg) alias)
                         (deadline (length (formats cfg)))) as [Hlt|Hle].
    + rewrite (match_formats_in_time _ _ _ Hlt) in Hraise. discriminate.
    + rewrite match_formats_timeout in Hraise by (try assumption; lra).
      injection Hraise as <-. eauto.
  - right. revert Hraise. unfold _is_allowed. rewrite Hr, Hl. simpl.
    destruct (canonical_alias existing) as [canonical|]; simpl.
    + rewrite localpart_matches_of_Some.
      destruct (localpart_matches_spec canonical lp) as (b & -> & _).
      simpl. destruct b; [discriminate|].
      destruct (any_localpart_matches_returns (alt_aliases existing) lp) as (b' & ->).
      discriminate.
    + intros [= <-]. auto.
Qed.

(** X11: [add_alias] sends a state event only for a candidate that the
    homeserver resolves to the room of the event, that is not among the
    alternate aliases fetched for the room, and that [_is_allowed]
    allows. *)
Theorem add_alias_sends_only_allowed evt alias w :
  state_events (snd (add_alias evt alias w)) <> state_events w ->
  (exists info, get_room_alias alias = Return info /\
                alias_room_id info = room_id evt) /\
  exists existing,
    fetched evt existing /\ ~ alias ∈ alt_aliases existing /\
    _is_allowed (self w) (room_id evt) alias existing = Return true.
Proof.
  intros Hsent.
  destruct (add_alias_cases evt alias w) as [Href|(Hv & existing & Hf & Hnew)].
  - apply add_alias_refuses in Href as (_ & _ & Hev). contradiction.
  - destruct (validate_alias_true_resolves _ _ _ Hv) as (lp & info & _ & _ & Hres & Hroom).
    split; [eauto|]. exists existing. split; [exact Hf|]. split; [exact Hnew|].
    rewrite (add_alias_decides _ _ _ _ Hv Hf Hnew) in Hsent.
    destruct (_is_allowed (self w) (room_id evt) alias existing) as [[|]|e];
      [reflexivity|exfalso; now apply Hsent..].
Qed.

(** X12: two exceptions can leave [add_alias], both out of
    [_is_allowed]: the [TimeoutError] of an elapsed deadline, in a room
    that has a rule set; and the [TypeError] of a missing canonical
    alias, in a room that has no rule set.  Nothing has been replied or
    sent when either does. *)
Theorem add_alias_exceptions evt alias w e :
  fst (add_alias evt alias w) = Raise e ->
  snd (add_alias evt alias w) = w /\
  ((e = TimeoutError /\
    exists cfg, _rooms (self w) !! room_id evt = Some cfg /\
                deadline_elapses cfg alias) \/
   (e = TypeError /\ _rooms (self w) !! room_id evt = None /\
    exists existing, fetched evt existing /\ canonical_alias existing = None)).
Proof.
  intros Hraise.
  destruct (add_alias_cases evt alias w) as [Href|(Hv & existing & Hf & Hnew)].
  - apply add_alias_refuses in Href as (Hret & _). congruence.
  - rewrite (add_alias_decides _ _ _ _ Hv Hf Hnew) in Hraise |- *.
    destruct (_is_allowed (self w) (room_id evt) alias existing) as [[|]|e'] eqn:Hd.
    + rewrite publish_aliases_returns in Hraise. discriminate.
    + discriminate.
    + simpl in Hraise. injection Hraise as ->. split; [reflexivity|].
      destruct (is_allowed_validated_raise _ _ _ _ _ Hv Hd)
        as [Htime|(-> & Hroom & Hnone)]; [now left|].
      right. eauto.
Qed.

(** X13: a candidate that passes the validation, is not yet among the
    alternate aliases and is allowed, is published: when the homeserver
    accepts the state event, [add_alias] returns without a reply, having
    sent the fetched content with the candidate appended. *)
Theorem add_alias_publishes evt alias existing w :
  fst (_validate_alias evt alias w) = Return true ->
  fetched evt existing ->
  ~ alias ∈ alt_aliases existing ->
  _is_allowed (self w) (room_id evt) alias existing = Return true ->
  send_state_event (room_id evt) (append_alias existing alias) = Return tt ->
  let w' := snd (add_alias evt alias w) in
  fst (add_alias evt alias w) = Return tt /\
  replies w' = replies w /\ log w' = log w /\
  state_events w' = state_events w ++ [(room_id evt, append_alias existing alias)].
Proof.
  intros Hv Hf Hnew Hok Hsend w'. subst w'.
  rewrite (add_alias_decides _ _ _ _ Hv Hf Hnew), Hok.
  destruct (publish_aliases_events evt alias existing w) as (_ & _ & Hev).
  destruct (publish_aliases_replies evt alias existing w) as [Hquiet _].
  destruct (Hquiet Hsend) as [Hrep Hlog].
  split; [apply publish_aliases_returns|]. auto.
Qed.

(** X14: a candidate that passes the validation and is not yet among the
    alternate aliases, but that [_is_allowed] denies, is answered with
    the refusal and nothing else happens. *)
Theorem add_alias_not_allowed evt alias existing w :
  fst (_validate_alias evt alias w) = Return true ->
  fetched evt existing ->
  ~ alias ∈ alt_aliases existing ->
  _is_allowed (self w) (room_id evt) alias existing = Return false ->
  add_alias evt alias w = reply "That alias is not allowed in this room" w.
Proof.
  intros Hv Hf Hnew Hno. now rewrite (add_alias_decides _ _ _ _ Hv Hf Hnew), Hno.
Qed.

(** X15: [add_alias] replies at most once; and a call that returns
    without having sent a state event has replied exactly once. *)
Theorem add_alias_one_reply evt alias w :
  let w' := snd (add_alias evt alias w) in
  (exists n, (n <= 1)%nat /\ replied n w w') /\
  (fst (add_alias evt alias w) = Return tt ->
   state_events w' = state_events w -> replied 1 w w').
Proof.
  intros w'. subst w'.
  destruct (add_alias_cases evt alias w) as [Href|(Hv & existing & Hf & Hnew)].
  - apply add_alias_refuses in Href as (_ & Hone & _). split; [exists 1%nat|]; auto.
  - rewrite (add_alias_decides _ _ _ _ Hv Hf Hnew).
    destruct (_is_allowed (self w) (room_id evt) alias existing) as [[|]|e].
    + destruct (publish_aliases_events evt alias existing w) as (_ & _ & Hev).
      destruct (publish_aliases_replies evt alias existing w) as [Hquiet Hfail].
      split.
      * destruct (send_state_event (room_id evt) (append_alias existing alias))
          as [[]|e] eqn:Hsend.
        -- destruct (Hquiet eq_refl) as [Hrep _]. exists 0%nat. split; [lia|].
           exists []. split; [now rewrite app_nil_r|reflexivity].
        -- exists 1%nat. split; [lia|]. now apply (Hfail e).
      * intros _ Hsame. rewrite Hev in Hsame.
        apply (f_equal length) in Hsame. rewrite List.length_app in Hsame.
        simpl in Hsame. lia.
    + split; [exists 1%nat; split; [lia|]|intros _ _]; apply replied_emit.
    + split; [exists 0%nat; split; [lia|apply replied_zero]|discriminate].
Qed.

End AddAliasFacts.

Lemma add_alias_sends_only_allowed_witness :
  let evt := {| room_id := Sample.ops; sender := "@user:matrix.org" |} in
  exists existing,
    fetched (C := Sample.homeserver true) evt existing /\
    ~ "#room:other.org" ∈ alt_aliases existing /\
    _is_allowed (E := MiniRe.engine) (Sample.bot ∅) Sample.ops "#room:other.org"
      existing = Return true.
Proof.
  intros evt.
  apply (add_alias_sends_only_allowed (E := MiniRe.engine)
           (C := Sample.homeserver true) evt "#room:other.org" (Sample.world ∅ ∅)).
  vm_compute. discriminate.
Defined.

Lemma add_alias_exceptions_witness :
  let evt := {| room_id := Sample.ops; sender := "@user:matrix.org" |} in
  let w := Sample.world {[Sample.ops := Sample.rules [Sample.slow_rule]]} ∅ in
  snd (add_alias (E := MiniRe.engine) (C := Sample.homeserver true)
         evt "#team-a:example.org" w) = w /\
  snd (add_alias (E := MiniRe.engine) (C := Sample.fresh_room)
         evt "#room:other.org" (Sample.world ∅ ∅)) = Sample.world ∅ ∅.
Proof.
  intros evt w. split.
  - apply (add_alias_exceptions (E := MiniRe.engine)
             (C := Sample.homeserver true) evt "#team-a:example.org" w TimeoutError).
    vm_compute. reflexivity.
  - pose proof (add_alias_exceptions (E := MiniRe.engine) (C := Sample.fresh_room)
                  evt "#room:other.org" (Sample.world ∅ ∅) TypeError) as Hexn.
    apply Hexn. vm_compute. reflexivity.
Defined.

Lemma add_alias_publishes_witness :
  let evt := {| room_id := Sample.ops; sender := "@user:matrix.org" |} in
  let w' := snd (add_alias (E := MiniRe.engine) (C := Sample.homeserver true)
                   evt "#room:other.org" (Sample.world ∅ ∅)) in
  replies w' = [] /\
  state_events w' =
    [(Sample.ops,
      {| canonical_alias := Some "#room:example.org";
         alt_aliases := ["#room:matrix.org"; "#Lobby:example.org"; "#room:other.org"] |})].
Proof.
  intros evt w'.
  destruct (add_alias_publishes (E := MiniRe.engine) (C := Sample.homeserver true)
              evt "#room:other.org" Sample.existing (Sample.world ∅ ∅))
    as (_ & Hrep & _ & Hev).
  - reflexivity.
  - left. reflexivity.
  - intros Hin. apply list_elem_of_In in Hin. vm_compute in Hin.
    destruct Hin as [Hin|[Hin|[]]]; discriminate Hin.
  - reflexivity.
  - reflexivity.
  - split; [exact Hrep|exact Hev].
Defined.

Lemma add_alias_not_allowed_witness :
  let evt := {| room_id := Sample.ops; sender := "@user:matrix.org" |} in
  add_alias (E := MiniRe.engine) (C := Sample.homeserver true)
    evt "#lobby:other.org" (Sample.world ∅ ∅) =
  reply "That alias is not allowed in this room" (Sample.world ∅ ∅).
Proof.
  intros evt.
  apply (add_alias_not_allowed (E := MiniRe.engine) (C := Sample.homeserver true)
           evt "#lobby:other.org" Sample.existing).
  - reflexivity.
  - left. reflexivity.
  - intros Hin. apply list_elem_of_In in Hin. vm_compute in Hin.
    destruct Hin as [Hin|[Hin|[]]]; discriminate Hin.
  - reflexivity.
Defined.

Lemma add_alias_one_reply_witness :
  let evt := {| room_id := Sample.ops; sender := "@user:matrix.org" |} in
  replied 1 (Sample.world ∅ ∅)
    (snd (add_alias (E := MiniRe.engine) (C := Sample.homeserver false)
            evt "#room:other.org" (Sample.world ∅ ∅))).
Proof.
  intros evt.
  apply (add_alias_one_reply (E := MiniRe.engine) (C := Sample.homeserver false)
           evt "#room:other.org" (Sample.world ∅ ∅)); reflexivity.
Defined.

(** ** The [allow] command as a whole *)

Section MoreAllowFacts.
Context `{E : RegexEngine} `{C : Client}.

(** The rule set [allow_format] starts from. *)
Local Abbreviation old_formats w evt :=
  (match _rooms (self w) !! room_id evt with
   | Some ri => formats ri
   | None => []
   end).

Lemma allow_format_valid evt regex compiled w :
  permitted evt w ->
  re_compile regex = Some compiled ->
  let w' := snd (allow_format evt regex w) in
  fst (allow_format evt regex w) = Return tt /\
  _rooms (self w') =
    <[room_id evt := {| formats := old_formats w evt ++ [compiled] |}]>
      (_rooms (self w)) /\
  disk w' = config (self w') /\
  rooms (disk w') =
    (fun info => {| cfg_formats := Some (map pattern (formats info)) |})
    <$> _rooms (self w') /\
  state_events w' = state_events w /\ log w' = log w /\
  replies w' =
    replies w ++
    [{| reply_text := "Added <code>" +:+ html_escape regex +:+
                      "</code> as an allowed alias format";
        reply_markdown := false; reply_allow_html := true |}].
Proof.
  intros Hperm Hc. unfold allow_format, bind, get, lift, put, ret.
  rewrite Hc.
  destruct (mem (sender evt) (admins (config (self w)))) eqn:Hadm; simpl.
  - destruct (_rooms (self w) !! room_id evt) as [ri|] eqn:Hroom; simpl;
      rewrite ?insert_insert_eq; repeat split; reflexivity.
  - destruct Hperm as [Hin|(p & -> & Hle)].
    + apply bool_decide_eq_false in Hadm. contradiction.
    + destruct (Z.ltb_spec (get_user_level p (sender evt)) (canonical_alias_level p));
        [lia|]. simpl.
      destruct (_rooms (self w) !! room_id evt) as [ri|] eqn:Hroom; simpl;
        rewrite ?insert_insert_eq; repeat split; reflexivity.
Qed.

Lemma allow_format_invalid_rooms evt regex w :
  permitted evt w ->
  re_compile regex = None ->
  _rooms (self (snd (allow_format evt regex w))) =
  match _rooms (self w) !! room_id evt with
  | Some _ => _rooms (self w)
  | None => <[room_id evt := {| formats := [] |}]> (_rooms (self w))
  end.
Proof.
  intros Hperm Hc. unfold allow_format, bind, get, lift, put, ret, raise.
  rewrite Hc.
  destruct (mem (sender evt) (admins (config (self w)))) eqn:Hadm; simpl.
  - destruct (_rooms (self w) !! room_id evt); reflexivity.
  - destruct Hperm as [Hin|(p & -> & Hle)].
    + apply bool_decide_eq_false in Hadm. contradiction.
    + destruct (Z.ltb_spec (get_user_level p (sender evt)) (canonical_alias_level p));
        [lia|]. simpl.
      destruct (_rooms (self w) !! room_id evt); reflexivity.
Qed.

(** X16: for a sender who has the permission and a pattern that
    compiles, [allow_format] returns after one HTML reply; the room's
    rule set is the one it had (none counts as empty) with the compiled
    pattern at its end, no other room changes, and the configuration in
    memory and on file is the written form of the rule sets. *)
Theorem allow_format_appends evt regex compiled w :
  permitted evt w ->
  re_compile regex = Some compiled ->
  let w' := snd (allow_format evt regex w) in
  fst (allow_format evt regex w) = Return tt /\
  _rooms (self w') !! room_id evt =
    Some {| formats := old_formats w evt ++ [compiled] |} /\
  (forall room, room <> room_id evt ->
                _rooms (self w') !! room = _rooms (self w) !! room) /\
  disk w' = config (self w') /\
  (forall room,
     rooms (disk w') !! room =
     (fun info => {| cfg_formats := Some (map pattern (formats info)) |})
     <$> _rooms (self w') !! room) /\
  state_events w' = state_events w /\
  replies w' =
    replies w ++
    [{| reply_text := "Added <code>" +:+ html_escape regex +:+
                      "</code> as an allowed alias format";
        reply_markdown := false; reply_allow_html := true |}].
Proof.
  intros Hperm Hc w'.
  destruct (allow_format_valid evt regex compiled w Hperm Hc)
    as (Hret & Hrooms & Hdisk & Hfile & Hev & _ & Hrep).
  fold w' in Hrooms, Hdisk, Hfile, Hev, Hrep.
  split; [exact Hret|]. split; [rewrite Hrooms; apply lookup_insert_eq|].
  split; [intros room Hne; rewrite Hrooms; now apply lookup_insert_ne|].
  split; [exact Hdisk|].
  split; [intros room; now rewrite Hfile, lookup_fmap|].
  split; [exact Hev|exact Hrep].
Qed.

(** X17: a sender who is no administrator and whose power level is below
    the one the alias event needs gets one refusal and nothing changes,
    whatever the pattern; and when the power levels cannot be fetched the
    exception of the request leaves the handler, with nothing changed. *)
Theorem allow_format_refused evt regex w :
  ~ sender evt ∈ admins (config (self w)) ->
  (forall powers,
     get_power_levels_event (room_id evt) = Return powers ->
     (get_user_level powers (sender evt) < canonical_alias_level powers)%Z ->
     allow_format evt regex w =
     (Return tt,
      snd (reply "You don't have the permission to manage aliases in this room" w)))
  /\
  (forall e,
     get_power_levels_event (room_id evt) = Raise e ->
     allow_format evt regex w = (Raise e, w)).
Proof.
  intros Hadm.
  assert (Hmem : mem (sender evt) (admins (config (self w))) = false)
    by (unfold mem; now apply bool_decide_eq_false).
  unfold allow_format, bind, get, lift, ret. rewrite Hmem. split.
  - intros powers -> Hlt. simpl.
    destruct (Z.ltb_spec (get_user_level powers (sender evt))
                         (canonical_alias_level powers)); [reflexivity|lia].
  - intros e ->. reflexivity.
Qed.

(** X18: when a sender who has the permission submits a pattern that does
    not compile in a room that has no rule set, the room is left with an
    empty rule set: from then on [_is_allowed] denies every alias there,
    whatever the existing aliases of the room are. *)
Theorem allow_format_failed_then_denied evt regex w alias existing_event :
  permitted evt w ->
  re_compile regex = None ->
  _rooms (self w) !! room_id evt = None ->
  _is_allowed (self (snd (allow_format evt regex w))) (room_id evt) alias
    existing_event = Return false.
Proof.
  intros Hperm Hc Hroom.
  rewrite (is_allowed_rules _ _ {| formats := [] |}); [reflexivity|].
  rewrite (allow_format_invalid_rooms _ _ _ Hperm Hc), Hroom.
  apply lookup_insert_eq.
Qed.

(** X19: after [allow_format] has added a pattern to a room, an alias
    that the pattern fully matches is allowed there, provided the
    deadline does not elapse on the extended rule set. *)
Theorem allow_format_then_allowed evt regex compiled w alias existing_event :
  permitted evt w ->
  re_compile regex = Some compiled ->
  re_fullmatch compiled alias = true ->
  ~ deadline_elapses {| formats := old_formats w evt ++ [compiled] |} alias ->
  _is_allowed (self (snd (allow_format evt regex w))) (room_id evt) alias
    existing_event = Return true.
Proof.
  intros Hperm Hc Hm Hin_time.
  destruct (allow_format_valid evt regex compiled w Hperm Hc) as (_ & Hrooms & _).
  rewrite (is_allowed_rules _ _ {| formats := old_formats w evt ++ [compiled] |})
    by (rewrite Hrooms; apply lookup_insert_eq).
  apply Qnot_le_lt in Hin_time.
  rewrite (match_formats_in_time _ _ _ Hin_time). f_equal.
  apply existsb_fullmatch. exists compiled. split; [|exact Hm].
  apply elem_of_app. right. left.
Qed.

Lemma allow_format_rooms_cases evt regex w :
  let rs' := _rooms (self (snd (allow_format evt regex w))) in
  rs' = _rooms (self w) \/
  rs' = <[room_id evt := {| formats := [] |}]> (_rooms (self w)) \/
  exists compiled,
    re_compile regex = Some compiled /\
    rs' = <[room_id evt := {| formats := old_formats w evt ++ [compiled] |}]>
            (_rooms (self w)).
Proof.
  unfold allow_format, bind, get, lift, put, ret, raise.
  destruct (mem (sender evt) (admins (config (self w)))); simpl.
  2: destruct (get_power_levels_event (room_id evt)) as [p|e]; simpl; [|auto].
  2: destruct (get_user_level p (sender evt) <? canonical_alias_level p)%Z;
    simpl; [auto|].
  all: destruct (re_compile regex) as [compiled|] eqn:Hc;
    destruct (_rooms (self w) !! room_id evt) as [ri|] eqn:Hroom; simpl; auto.
  all: right; right; exists compiled; split; [reflexivity|].
  all: now rewrite ?insert_insert_eq.
Qed.

End MoreAllowFacts.

Lemma allow_format_appends_witness :
  let evt := {| room_id := Sample.ops; sender := Sample.admin |} in
  let w' := snd (allow_format (E := MiniRe.engine) (C := Sample.homeserver true)
                   evt Sample.team_rule (Sample.world ∅ ∅)) in
  _rooms (self w') !! Sample.ops = Some (Sample.rules [Sample.team_rule]) /\
  disk w' = config (self w').
Proof.
  intros evt w'.
  destruct (allow_format_appends (E := MiniRe.engine) (C := Sample.homeserver true)
              evt Sample.team_rule (Build_Pattern Sample.team_rule)
              (Sample.world ∅ ∅)) as (_ & Hroom & _ & Hdisk & _).
  - left. left.
  - reflexivity.
  - split; [exact Hroom|exact Hdisk].
Defined.

Lemma allow_format_refused_witness :
  let evt := {| room_id := Sample.ops; sender := "@user:matrix.org" |} in
  allow_format (E := MiniRe.engine) (C := Sample.homeserver true)
    evt Sample.team_rule (Sample.world ∅ ∅) =
  (Return tt,
   snd (reply "You don't have the permission to manage aliases in this room"
          (Sample.world ∅ ∅))) /\
  allow_format (E := MiniRe.engine) (C := Sample.unreachable)
    evt Sample.team_rule (Sample.world ∅ ∅) =
  (Raise OtherException, Sample.world ∅ ∅).
Proof.
  intros evt.
  assert (Hno : ~ sender evt ∈ admins (config (self (Sample.world ∅ ∅)))).
  { intros Hin. apply list_elem_of_In in Hin. vm_compute in Hin.
    destruct Hin as [Hin|[]]. discriminate Hin. }
  split.
  - destruct (allow_format_refused (E := MiniRe.engine) (C := Sample.homeserver true)
                evt Sample.team_rule (Sample.world ∅ ∅) Hno) as [Hlow _].
    apply (Hlow {| get_user_level := fun _ => 0%Z; canonical_alias_level := 50%Z |});
      [reflexivity|reflexivity].
  - destruct (allow_format_refused (E := MiniRe.engine) (C := Sample.unreachable)
                evt Sample.team_rule (Sample.world ∅ ∅) Hno) as [_ Hfail].
    apply Hfail. reflexivity.
Defined.

Lemma allow_format_failed_then_denied_witness :
  let evt := {| room_id := Sample.ops; sender := Sample.admin |} in
  _is_allowed (E := MiniRe.engine) (Sample.bot ∅) Sample.ops "#room:other.org"
    Sample.existing = Return true /\
  _is_allowed (E := MiniRe.engine)
    (self (snd (allow_format (E := MiniRe.engine) (C := Sample.homeserver true)
                  evt Sample.broken_rule (Sample.world ∅ ∅))))
    Sample.ops "#room:other.org" Sample.existing = Return false.
Proof.
  intros evt. split; [reflexivity|].
  apply (allow_format_failed_then_denied (E := MiniRe.engine)
           (C := Sample.homeserver true) evt Sample.broken_rule (Sample.world ∅ ∅)).
  - left. left.
  - reflexivity.
  - reflexivity.
Defined.

Lemma allow_format_then_allowed_witness :
  let evt := {| room_id := Sample.ops; sender := Sample.admin |} in
  _is_allowed (E := MiniRe.engine)
    (self (snd (allow_format (E := MiniRe.engine) (C := Sample.homeserver true)
                  evt Sample.team_rule (Sample.world ∅ ∅))))
    Sample.ops "#team-a:example.org" Sample.existing = Return true.
Proof.
  intros evt.
  apply (allow_format_then_allowed (E := MiniRe.engine) (C := Sample.homeserver true)
           evt Sample.team_rule (Build_Pattern Sample.team_rule) (Sample.world ∅ ∅)).
  - left. left.
  - reflexivity.
  - reflexivity.
  - intros Hel. apply Qle_bool_iff in Hel. vm_compute in Hel. discriminate Hel.
Defined.

(** ** Reloading and saving, as a whole *)

Section MorePersistenceFacts.
Context `{E : RegexEngine} `{C : Client}.


Lemma reload_frame w :
  let w' := snd (on_external_config_update w) in
  config (self w') = disk w /\ disk w' = disk w /\
  replies w' = replies w /\ state_events w' = state_events w /\
  _command (self w') = fst (command (disk w)) /\
  _aliases (self w') =
    list_to_set (fst (command (disk w)) :: snd (command (disk w))).
Proof.
  unfold on_external_config_update. destruct (map_fold _ _ _). simpl.
  repeat split; reflexivity.
Qed.


(** The warnings of one room name patterns of that room that do not
    compile. *)
Lemma load_room_log_sound room info r :
  r ∈ snd (load_room room info) ->
  exists pat, r = LogWarning pat room /\
              pat ∈ default [] (cfg_formats info) /\ re_valid pat = false.
Proof.
  rewrite load_room_spec. simpl. intros Hin.
  apply list_elem_of_In, in_map_iff in Hin as (pat & <- & Hpat).
  apply filter_In in Hpat as [Hin Hbad]. exists pat.
  split; [reflexivity|]. split; [now apply list_elem_of_In|].
  now destruct (re_valid pat).
Qed.

Lemma reload_log_only_warnings w :
  exists lg,
    log (snd (on_external_config_update w)) = log w ++ lg /\
    forall r, r ∈ lg ->
      exists room info, rooms (disk w) !! room = Some info /\
                        r ∈ snd (load_room room info).
Proof.
  unfold on_external_config_update.
  match goal with |- context [map_fold ?f ?b ?m] =>
    pose proof (map_fold_weak_ind
      (fun acc (stored : gmap RoomID RoomConfig) =>
         forall r, r ∈ snd acc ->
           exists room info, stored !! room = Some info /\
                             r ∈ snd (load_room room info))
      f b) as Hind;
    destruct (map_fold f b m) as [rs lg] eqn:Hfold
  end.
  simpl. exists lg. split; [reflexivity|].
  change lg with (snd (rs, lg)). rewrite <- Hfold. apply Hind; clear.
  - intros r Hin. inversion Hin.
  - intros i x m [rs lg] Hi IH r. destruct (load_room i x) as [ri lg'] eqn:Hload.
    simpl. intros Hin. apply elem_of_app in Hin as [Hin|Hin].
    + destruct (IH r Hin) as (room & info & Hroom & Hr).
      exists room, info. split; [|exact Hr].
      rewrite lookup_insert_ne; [exact Hroom|congruence].
    + exists i, x. rewrite lookup_insert_eq, Hload. auto.
Qed.


(** X21: after a reload the command answers to its first configured
    name, and its aliases are exactly the configured names, the first
    one included. *)
Theorem reload_command_names w :
  let self' := self (snd (on_external_config_update w)) in
  altalias_name self' = fst (command (disk w)) /\
  (forall val,
     altalias_accepts self' val = true <->
     val = fst (command (disk w)) \/ val ∈ snd (command (disk w))) /\
  altalias_accepts self' (altalias_name self') = true.
Proof.
  intros self'. subst self'.
  destruct (reload_frame w) as (_ & _ & _ & _ & Hname & Hals).
  unfold altalias_name, altalias_accepts. rewrite Hname, Hals.
  split; [reflexivity|]. split.
  - intros val. rewrite bool_decide_eq_true, elem_of_list_to_set, elem_of_cons.
    reflexivity.
  - apply bool_decide_eq_true, elem_of_list_to_set. left.
Qed.


(** X23: a reload logs nothing but its warnings: every record it adds
    names a room of the file and a pattern of that room that does not
    compile. *)
Theorem reload_log_sound w :
  exists lg,
    log (snd (on_external_config_update w)) = log w ++ lg /\
    forall r, r ∈ lg ->
      exists pat room info,
        r = LogWarning pat room /\
        rooms (disk w) !! room = Some info /\
        pat ∈ default [] (cfg_formats info) /\
        re_valid pat = false.
Proof.
  destruct (reload_log_only_warnings w) as (lg & Hlog & Hsound).
  exists lg. split; [exact Hlog|]. intros r Hin.
  destruct (Hsound r Hin) as (room & info & Hroom & Hr).
  destruct (load_room_log_sound _ _ _ Hr) as (pat & -> & Hpat & Hbad).
  exists pat, room, info. auto.
Qed.

Lemma build_pattern_eta (fmts : list Pattern) :
  map Build_Pattern (map pattern fmts) = fmts.
Proof.
  induction fmts as [|[src] fmts IH]; simpl; [reflexivity|now rewrite IH].
Qed.

Lemma compiled_valid regex :
  re_compile (pattern regex) = Some regex -> re_valid (pattern regex) = true.
Proof. unfold re_compile. now destruct (re_valid (pattern regex)). Qed.

(** X24: when every stored pattern is the compiled form of its source,
    saving the rule sets and loading them again gives back the very same
    mapping: the same rooms with the same rule sets. *)
Theorem save_reload_identity w :
  rooms_compiled (_rooms (self w)) ->
  _rooms (self (snd ((save_rooms ;; on_external_config_update)%handler w))) =
  _rooms (self w).
Proof.
  intros Hinv. unfold bind. simpl.
  destruct (reload_rooms (snd (save_rooms w))) as [Hr _].
  apply map_eq. intros room. rewrite Hr. simpl. rewrite lookup_fmap.
  destruct (_rooms (self w) !! room) as [ri|] eqn:Hroom; simpl; [|reflexivity].
  rewrite load_room_spec. simpl. rewrite filter_all_valid.
  - rewrite build_pattern_eta. now destruct ri.
  - apply Forall_forall. intros regex Hin. apply compiled_valid.
    apply (Hinv room ri regex Hroom). exact Hin.
Qed.

Lemma rooms_compiled_insert rs room ri :
  rooms_compiled rs ->
  (forall regex, regex ∈ formats ri -> re_compile (pattern regex) = Some regex) ->
  rooms_compiled (<[room := ri]> rs).
Proof.
  intros Hinv Hri room' ri' regex Hl Hin.
  destruct (decide (room = room')) as [<-|Hne].
  - rewrite lookup_insert_eq in Hl. injection Hl as <-. auto.
  - rewrite lookup_insert_ne in Hl by assumption. eauto.
Qed.

Lemma compile_compiled regex compiled :
  re_compile regex = Some compiled -> re_compile (pattern compiled) = Some compiled.
Proof.
  unfold re_compile. destruct (re_valid regex) eqn:Hv; [|discriminate].
  intros [= <-]. simpl. now rewrite Hv.
Qed.

Lemma add_alias_keeps_self evt alias w :
  self (snd (add_alias evt alias w)) = self w.
Proof.
  unfold add_alias, bind.
  pose proof (validate_alias_silent evt alias w) as Hv.
  destruct (_validate_alias evt alias w) as [[valid|e] w1]; simpl in Hv;
    destruct Hv as (Hs1 & _ & _); [|exact Hs1].
  destruct valid; simpl; [|exact Hs1].
  pose proof (get_existing_aliases_silent evt w1) as Hg.
  destruct (_get_existing_aliases evt w1) as [[existing|e] w2]; simpl in Hg;
    destruct Hg as (Hs2 & _ & _); [|simpl; congruence].
  destruct existing as [existing|]; [|simpl; congruence].
  destruct (mem alias (alt_aliases existing)); simpl; [congruence|].
  unfold get, lift.
  destruct (_is_allowed (self w2) (room_id evt) alias existing) as [[|]|e];
    simpl; try congruence.
  destruct (publish_aliases_events evt alias existing w2) as (Hs3 & _). congruence.
Qed.

(** X25: the commands keep the rule sets well-formed: when every stored
    pattern is the compiled form of its source, this still holds after
    [add_alias], after [allow_format] (whatever its outcome), after
    [save_rooms] and after [allowed_formats]. *)
Theorem handlers_keep_compiled evt alias regex w :
  rooms_compiled (_rooms (self w)) ->
  rooms_compiled (_rooms (self (snd (add_alias evt alias w)))) /\
  rooms_compiled (_rooms (self (snd (allow_format evt regex w)))) /\
  rooms_compiled (_rooms (self (snd (save_rooms w)))) /\
  rooms_compiled (_rooms (self (snd (allowed_formats evt w)))).
Proof.
  intros Hinv. split; [|split; [|split]].
  - now rewrite add_alias_keeps_self.
  - destruct (allow_format_rooms_cases evt regex w)
      as [->|[->|(compiled & Hc & ->)]]; [exact Hinv| |].
    + apply rooms_compiled_insert; [exact Hinv|]. intros regex' Hin. inversion Hin.
    + apply rooms_compiled_insert; [exact Hinv|]. intros regex' Hin.
      apply elem_of_app in Hin as [Hin|Hin].
      * destruct (_rooms (self w) !! room_id evt) as [ri|] eqn:Hroom;
          [eauto|inversion Hin].
      * apply list_elem_of_singleton in Hin as ->. now apply (compile_compiled regex).
  - exact Hinv.
  - unfold allowed_formats, bind, get, reply, reply_html, emit.
    destruct (_rooms (self w) !! room_id evt); exact Hinv.
Qed.


End MorePersistenceFacts.


Lemma save_reload_identity_witness :
  let rs : gmap RoomID RoomInfo :=
    {[Sample.ops := Sample.rules [Sample.team_rule; "#ops:.*"]]} in
  _rooms (self (snd ((save_rooms ;; on_external_config_update (E := MiniRe.engine))%handler
                       (Sample.world rs ∅)))) = rs.
Proof.
  intros rs.
  apply (save_reload_identity (E := MiniRe.engine) (Sample.world rs ∅)).
  intros room ri regex Hl Hin. simpl in Hl.
  apply lookup_singleton_Some in Hl as [_ <-].
  apply list_elem_of_In in Hin. simpl in Hin.
  destruct Hin as [<-|[<-|[]]]; reflexivity.
Defined.

Lemma handlers_keep_compiled_witness :
  let evt := {| room_id := Sample.ops; sender := Sample.admin |} in
  rooms_compiled (E := MiniRe.engine)
    (_rooms (self (snd (allow_format (E := MiniRe.engine) (C := Sample.homeserver true)
                          evt Sample.team_rule (Sample.world ∅ ∅))))).
Proof.
  intros evt.
  pose proof (handlers_keep_compiled (E := MiniRe.engine) (C := Sample.homeserver true)
                evt "#room:other.org" Sample.team_rule (Sample.world ∅ ∅)) as Hkeep.
  destruct Hkeep as (_ & Hallow & _); [|exact Hallow].
  intros room ri regex Hl.
  cbv [Sample.world Sample.bot self _rooms] in Hl.
  rewrite lookup_empty in Hl. discriminate Hl.
Defined.

Lemma validate_alias_spec_witness :
  let evt := {| room_id := Sample.ops; sender := "@user:matrix.org" |} in
  fst (_validate_alias (C := Sample.homeserver true) evt "#room:other.org"
         (Sample.world ∅ ∅)) = Return true.
Proof.
  intros evt.
  destruct (validate_alias_spec (C := Sample.homeserver true) evt
              "#room:other.org" (Sample.world ∅ ∅)) as (b & Hb & Hiff & _);
    [intros _; reflexivity|].
  rewrite Hb. f_equal. apply Hiff.
  exists "room", {| alias_room_id := Sample.ops |}.
  repeat split; reflexivity.
Defined.

Lemma reload_log_sound_witness :
  let stored :=
    {| cfg_formats := Some [Sample.team_rule; Sample.broken_rule; "#ops:.*"] |} in
  exists pat room info,
    LogWarning Sample.broken_rule Sample.ops = LogWarning pat room /\
    (rooms (disk (Sample.world ∅ {[Sample.ops := stored]})) !! room = Some info /\
     pat ∈ default [] (cfg_formats info) /\
     re_valid (RegexEngine := MiniRe.engine) pat = false).
Proof.
  intros stored.
  pose proof (reload_log_sound (E := MiniRe.engine)
                (Sample.world ∅ {[Sample.ops := stored]})) as (lg & Hlog & Hsound).
  apply Hsound.
  assert (Hlg : lg = [LogWarning Sample.broken_rule Sample.ops]).
  { change (log (Sample.world ∅ {[Sample.ops := stored]})) with (@nil LogRecord) in Hlog.
    simpl in Hlog. rewrite <- Hlog. vm_compute. reflexivity. }
  rewrite Hlg. left.
Defined.
